(** * MultilingualTransformerProbing: the CoNLL-U wrapper and the distance probe

    A shallow embedding of [src/data_support/conll_wrapper.py] (module [Conll])
    and of the probe in [network.py] (module [Probe]).

    Conventions of the embedding:
    - Python lists are Rocq lists; list indices are [nat], integers stored in
      tensors are [Z] (the segment maps are int64 with the sentinel -1);
    - real-valued tensors are nested lists of exact rationals [Q]: float32
      rounding is outside the model, every equation on them is one of exact
      arithmetic;
    - a Python exception is a value [Err e] of the type [result];
    - the tokenizer, the transformer, the automatic differentiation and the
      optimizer are external to the repository and enter as section variables,
      the constants of the absent [constants] module likewise. *)

From Stdlib Require Import ZArith QArith Qabs Lia Ascii.
From Stdlib Require String.
From stdpp Require Import gmap strings list fin_maps.

Local Open Scope Z_scope.

(** ** Exceptions *)

Inductive pyerr :=
  ValueError | IndexError | KeyError | InvalidArgumentError | StagingError.

Inductive result (A : Type) :=
  | Ok (a : A)
  | Err (e : pyerr).
Arguments Ok {A} a.
Arguments Err {A} e.

Definition rbind {A B} (r : result A) (k : A → result B) : result B :=
  match r with
  | Ok a => k a
  | Err e => Err e
  end.

Notation "x ←ᵣ r ; k" := (rbind r (λ x, k))
  (at level 20, r at level 100, k at level 200, right associativity,
   format "x  ←ᵣ  r ;  '/' k").

(** [for x in xs: st = body(st, x)] with exceptions leaving the loop. *)
Fixpoint for_each {A S} (body : S → A → result S) (st : S) (xs : list A) : result S :=
  match xs with
  | [] => Ok st
  | x :: xs' => st' ←ᵣ body st x; for_each body st' xs'
  end.

Lemma for_each_app {A S} (body : S → A → result S) st xs ys :
  for_each body st (xs ++ ys) = (st' ←ᵣ for_each body st xs; for_each body st' ys).
Proof.
  revert st. induction xs as [|x xs IH]; intros st; simpl; [done|].
  destruct (body st x); simpl; auto.
Qed.

Lemma for_each_preserves {A S} (body : S → A → result S) (I : S → Prop)
    (xs : list A) (st st' : S) :
  (∀ s x s', x ∈ xs → I s → body s x = Ok s' → I s') →
  I st → for_each body st xs = Ok st' → I st'.
Proof.
  revert st. induction xs as [|x xs IH]; intros st Hstep Hst; simpl.
  - by intros [= <-].
  - destruct (body st x) as [s1|e] eqn:Hx; simpl; [|done].
    apply IH.
    + intros s y s' Hy. apply Hstep. by right.
    + eapply Hstep; [by left|done|done].
Qed.

Lemma filter_all {A} (P : A → Prop) `{∀ x, Decision (P x)} (l : list A) :
  Forall P l → filter P l = l.
Proof.
  induction 1 as [|x l Hx _ IH]; [done|].
  by rewrite filter_cons_True, IH.
Qed.

(** ** The CoNLL-U wrapper *)

Module Conll.

(** *** The corpus fields of [ConllWrapper] *)

Record corpus := Corpus {
  tokens : list (list string);
  lemmas : list (list string);
  pos : list (list string);
  relations : list (list (Z * Z));
  roots : list Z
}.

Definition empty_corpus : corpus := Corpus [] [] [] [] [].

(** [[v for i, v in enumerate(field) if i not in indices_to_rm]], the
    enumeration starting at [i]. *)
Fixpoint drop_indices {A} (indices_to_rm : list nat) (i : nat) (field : list A) : list A :=
  match field with
  | [] => []
  | v :: rest =>
      if decide (i ∈ indices_to_rm)
      then drop_indices indices_to_rm (S i) rest
      else v :: drop_indices indices_to_rm (S i) rest
  end.

(** [if self.f: self.f = [...]]: an empty list is falsy and left as it is. *)
Definition remove_field {A} (indices_to_rm : list nat) (field : list A) : list A :=
  match field with
  | [] => field
  | _ :: _ => drop_indices indices_to_rm 0 field
  end.

Definition remove_indices (indices_to_rm : list nat) (c : corpus) : corpus :=
  {| tokens := remove_field indices_to_rm (tokens c);
     lemmas := remove_field indices_to_rm (lemmas c);
     pos := remove_field indices_to_rm (pos c);
     relations := remove_field indices_to_rm (relations c);
     roots := remove_field indices_to_rm (roots c) |}.

(** The original indices that survive a removal from a field of [n] entries. *)
Definition survivors (indices_to_rm : list nat) (n : nat) : list nat :=
  filter (λ i, i ∉ indices_to_rm) (seq 0 n).

(** *** The derived views of the corpus *)

(** [word_count] *)
Definition word_count (c : corpus) : list nat :=
  map length (relations c).

(** [punctuation_mask]: true where the tag is not ["PUNCT"]. *)
Definition sentence_mask (sentence_pos : list string) : list bool :=
  map (λ pos_tag, bool_decide (pos_tag ≠ "PUNCT")) sentence_pos.

Definition punctuation_mask (c : corpus) : list (list bool) :=
  map sentence_mask (pos c).

(** [{dep: parent for dep, parent in sent_relation}]: a later pair with the
    same dependent replaces an earlier one. *)
Definition relation_dict (sent_relation : list (Z * Z)) : gmap Z Z :=
  foldl (λ d r, <[r.1 := r.2]> d) ∅ sent_relation.

(** [unlabeled_relations] *)
Definition unlabeled_relations (c : corpus) : list (gmap Z Z) :=
  map relation_dict (relations c).

(** [l[z]] on a Python list: a negative index counts from the end. *)
Definition py_list_index {A} (l : list A) (z : Z) : result A :=
  let n := Z.of_nat (length l) in
  let at_position (k : Z) :=
    match l !! Z.to_nat k with
    | Some x => Ok x
    | None => Err IndexError
    end in
  if bool_decide (0 ≤ z) then at_position z
  else if bool_decide (- n ≤ z) then at_position (n + z)
  else Err IndexError.

(** One step of the set comprehension of [unlabeled_unordered_relations]:
    the condition [(not sent_punctuation_mask[dep - 1]) and parent] indexes
    the mask first. *)
Definition add_edge (sent_punctuation_mask : list bool) (edges : gset (gset Z))
    (r : Z * Z) : result (gset (gset Z)) :=
  not_punctuation ←ᵣ py_list_index sent_punctuation_mask (r.1 - 1);
  Ok (if negb not_punctuation && bool_decide (r.2 ≠ 0)
      then {[ {[ r.1; r.2 ]} ]} ∪ edges
      else edges).

Definition sentence_edges (sent_relation : list (Z * Z))
    (sent_punctuation_mask : list bool) : result (gset (gset Z)) :=
  for_each (add_edge sent_punctuation_mask) ∅ sent_relation.

(** A list comprehension whose element may raise. *)
Fixpoint collect {A B} (f : A → result B) (l : list A) : result (list B) :=
  match l with
  | [] => Ok []
  | x :: l' => y ←ᵣ f x; ys ←ᵣ collect f l'; Ok (y :: ys)
  end.

(** [unlabeled_unordered_relations] *)
Definition unlabeled_unordered_relations (c : corpus) : result (list (gset (gset Z))) :=
  collect (λ p, sentence_edges p.1 p.2) (zip (relations c) (punctuation_mask c)).

(** *** [training_examples] *)

(** [' '.join(words)] *)
Fixpoint join_space (words : list string) : string :=
  match words with
  | [] => ""
  | [w] => w
  | w :: rest => w +:+ " " +:+ join_space rest
  end.

(** [a[start:stop] = v] on a one-dimensional numpy array: the slice is clipped
    to the array, positions outside it are left alone. *)
Definition slice_assign (a : list Z) (start stop : nat) (v : Z) : list Z :=
  imap (λ i x, if bool_decide (start ≤ i < stop)%nat then v else x) a.

(** *** Predicates on segment maps *)

Definition nondecreasing (l : list Z) : Prop :=
  ∀ i j x y, (i ≤ j)%nat → l !! i = Some x → l !! j = Some y → x ≤ y.

(** How often the value [v] occurs in [l]. *)
Definition occurrences (v : Z) (l : list Z) : nat :=
  length (filter (λ x, x = v) l).

(** The entries of a segment map that are not the sentinel. *)
Definition non_sentinel (l : list Z) : list Z :=
  filter (λ x, x ≠ -1) l.

(** The largest entry of a segment map (the sentinel when it has no other). *)
Definition max_observed (l : list Z) : Z := foldr Z.max (-1) l.

Section Aligner.
(** [self.tokenizer.tokenize(text, add_special_tokens=False)] and
    [self.tokenizer.convert_tokens_to_ids]. *)
Variable tokenize : string → list string.
Variable convert_tokens_to_ids : list string → list Z.
(** [constants.MAX_TOKENS] and [constants.MAX_WORDPIECES]. *)
Variable MAX_TOKENS MAX_WORDPIECES : nat.

Definition sent_wordpieces (sent_tokens : list string) : list string :=
  ["[CLS]"] ++ tokenize (join_space sent_tokens) ++ ["[SEP]"].

(** First loop: the indices rejected for their length. *)
Definition too_long (sent_tokens : list string) : bool :=
  if bool_decide (MAX_TOKENS ≤ length sent_tokens)%nat then true
  else bool_decide (MAX_WORDPIECES ≤ length (sent_wordpieces sent_tokens))%nat.

Fixpoint length_rejections (idx : nat) (sents : list (list string)) : list nat :=
  match sents with
  | [] => []
  | sent_tokens :: rest =>
      if too_long sent_tokens
      then idx :: length_rejections (S idx) rest
      else length_rejections (S idx) rest
  end.

(** The state of the loop over the words of one sentence. *)
Record seg_state := SegState {
  sent_segments : list Z;
  segment_id : Z;
  wordpiece_pointer : nat
}.

Definition seg_init : seg_state :=
  SegState (replicate MAX_WORDPIECES (0 - 1)) 0 1.

Definition seg_step (st : seg_state) (token : string) : seg_state :=
  let worpieces_per_token := length (tokenize token) in
  {| sent_segments :=
       slice_assign (sent_segments st) (wordpiece_pointer st)
         (wordpiece_pointer st + worpieces_per_token) (segment_id st);
     segment_id := segment_id st + 1;
     wordpiece_pointer := (wordpiece_pointer st + worpieces_per_token)%nat |}.

Definition seg_loop (sent_tokens : list string) : seg_state :=
  foldl seg_step seg_init sent_tokens.

(** [token_ids + [0] * (MAX_WORDPIECES - len(wordpieces))]; a non-positive
    factor gives the empty list. *)
Definition get_bert_ids (wordpieces : list string) : list Z :=
  convert_tokens_to_ids wordpieces ++ replicate (MAX_WORDPIECES - length wordpieces) 0.

(** The accumulators of the second loop. *)
Record examples := Examples {
  bert_ids : list (list Z);
  segments : list (list Z);
  max_segment : list Z;
  indices_to_rm : list nat;
  sent_idx : nat
}.

Definition example_step (ex : examples) (sent_tokens : list string) : examples :=
  if decide (sent_idx ex ∈ indices_to_rm ex)
  then Examples (bert_ids ex) (segments ex) (max_segment ex) (indices_to_rm ex)
         (S (sent_idx ex))
  else
    let st := seg_loop sent_tokens in
    if bool_decide (S (wordpiece_pointer st) ≠ length (sent_wordpieces sent_tokens))
    then Examples (bert_ids ex) (segments ex) (max_segment ex)
           (indices_to_rm ex ++ [sent_idx ex]) (S (sent_idx ex))
    else Examples (bert_ids ex ++ [get_bert_ids (sent_wordpieces sent_tokens)])
           (segments ex ++ [sent_segments st])
           (max_segment ex ++ [segment_id st])
           (indices_to_rm ex) (S (sent_idx ex)).

(** The second loop over the whole corpus. *)
Definition run_examples (c : corpus) : examples :=
  foldl example_step (Examples [] [] [] (length_rejections 0 (tokens c)) 0) (tokens c).

(** The three returned tensors, row by row ([tf.stack] is left out), and the
    corpus after [remove_indices]. *)
Definition training_examples (c : corpus)
  : list (list Z) * list (list Z) * list Z * corpus :=
  let ex := run_examples c in
  (bert_ids ex, segments ex, max_segment ex, remove_indices (indices_to_rm ex) c).

(** A sentence survives when it passes the two length checks and the
    consistency check. *)
Definition survives (sent_tokens : list string) : bool :=
  negb (too_long sent_tokens)
  && bool_decide (S (wordpiece_pointer (seg_loop sent_tokens))
                  = length (sent_wordpieces sent_tokens)).

(** The segment ids the words of a sentence are expected to occupy: word [w]
    (counted from [s]) as often as the tokenizer splits it in isolation. *)
Definition word_run (s : nat) (w : nat) (token : string) : list Z :=
  replicate (length (tokenize token)) (Z.of_nat (s + w)).

Definition word_runs (s : nat) (sent_tokens : list string) : list Z :=
  concat (imap (word_run s) sent_tokens).

(** The sum of the per-word wordpiece counts. *)
Definition pieces_total (sent_tokens : list string) : nat :=
  sum_list (map (λ token, length (tokenize token)) sent_tokens).

(** *** The loop over the words of a sentence *)

Lemma slice_assign_length a start stop v :
  length (slice_assign a start stop v) = length a.
Proof. unfold slice_assign. by rewrite length_imap. Qed.

Lemma slice_assign_inside a p k v :
  (p + k ≤ length a)%nat →
  slice_assign a p (p + k) v = take p a ++ replicate k v ++ drop (p + k) a.
Proof.
  intros Hle. apply list_eq. intros i. unfold slice_assign.
  rewrite list_lookup_imap.
  destruct (decide (i < p)%nat) as [Hlt|Hge].
  - rewrite lookup_app_l by (rewrite length_take; lia).
    rewrite lookup_take_lt by lia.
    destruct (a !! i); simpl; [|done].
    rewrite bool_decide_eq_false_2 by lia. done.
  - rewrite lookup_app_r by (rewrite length_take; lia).
    rewrite length_take, Nat.min_l by lia.
    destruct (decide (i < p + k)%nat) as [Hin|Hout].
    + rewrite lookup_app_l by (rewrite length_replicate; lia).
      rewrite lookup_replicate_2 by lia.
      destruct (lookup_lt_is_Some_2 a i) as [x ->]; [lia|]. simpl.
      rewrite bool_decide_eq_true_2 by lia. done.
    + rewrite lookup_app_r by (rewrite length_replicate; lia).
      rewrite length_replicate, lookup_drop.
      replace (p + k + (i - p - k))%nat with i by lia.
      destruct (a !! i); simpl; [|done].
      rewrite bool_decide_eq_false_2 by lia. done.
Qed.

Lemma word_runs_nil s : word_runs s [] = [].
Proof. done. Qed.

Lemma word_runs_cons s token rest :
  word_runs s (token :: rest)
  = replicate (length (tokenize token)) (Z.of_nat s) ++ word_runs (S s) rest.
Proof.
  unfold word_runs. rewrite imap_cons. simpl. unfold word_run at 1.
  rewrite Nat.add_0_r. f_equal. f_equal. apply imap_ext. intros i x _.
  unfold word_run. simpl. do 2 f_equal. lia.
Qed.

Lemma word_runs_length s sent_tokens :
  length (word_runs s sent_tokens) = pieces_total sent_tokens.
Proof.
  revert s. induction sent_tokens as [|t r IH]; intros s; [done|].
  rewrite word_runs_cons, length_app, length_replicate, IH. done.
Qed.

(** The loop started anywhere inside the array: it advances the pointer by the
    total of the counts, the id by the number of words, and writes the runs. *)
Lemma seg_fold_spec sent_tokens a s p :
  (p + pieces_total sent_tokens ≤ length a)%nat →
  foldl seg_step (SegState a (Z.of_nat s) p) sent_tokens
  = SegState (take p a ++ word_runs s sent_tokens
              ++ drop (p + pieces_total sent_tokens) a)
      (Z.of_nat (s + length sent_tokens)) (p + pieces_total sent_tokens).
Proof.
  revert a s p. induction sent_tokens as [|t r IH]; intros a s p Hle.
  - simpl. rewrite !Nat.add_0_r, take_drop. done.
  - unfold pieces_total in *. simpl in *.
    unfold seg_step at 2. simpl.
    replace (Z.of_nat s + 1) with (Z.of_nat (S s)) by lia.
    rewrite IH by (rewrite slice_assign_length; lia).
    rewrite slice_assign_inside by lia.
    rewrite word_runs_cons. f_equal; [|lia|lia].
    set (k := length (tokenize t)) in *.
    set (n := sum_list _) in *.
    rewrite take_app_ge by (rewrite length_take; lia).
    rewrite length_take, Nat.min_l by lia.
    rewrite take_app_ge by (rewrite length_replicate; lia).
    rewrite length_replicate.
    replace (p + k - p - k)%nat with 0%nat by lia. rewrite take_0, app_nil_r.
    rewrite <- !app_assoc. do 3 f_equal.
    rewrite drop_app_ge by (rewrite length_take; lia).
    rewrite length_take, Nat.min_l by lia.
    rewrite drop_app_ge by (rewrite length_replicate; lia).
    rewrite length_replicate, drop_drop. f_equal. lia.
Qed.

Lemma seg_fold_counters sent_tokens st :
  segment_id (foldl seg_step st sent_tokens)
  = segment_id st + Z.of_nat (length sent_tokens)
  ∧ wordpiece_pointer (foldl seg_step st sent_tokens)
    = (wordpiece_pointer st + pieces_total sent_tokens)%nat.
Proof.
  revert st. induction sent_tokens as [|t r IH]; intros st.
  - simpl. unfold pieces_total. simpl. split; lia.
  - simpl. destruct (IH (seg_step st t)) as [-> ->].
    unfold pieces_total. simpl. split; lia.
Qed.

Lemma seg_loop_pointer sent_tokens :
  wordpiece_pointer (seg_loop sent_tokens) = S (pieces_total sent_tokens).
Proof. unfold seg_loop. by destruct (seg_fold_counters sent_tokens seg_init) as [_ ->]. Qed.

Lemma seg_loop_id sent_tokens :
  segment_id (seg_loop sent_tokens) = Z.of_nat (length sent_tokens).
Proof.
  unfold seg_loop. destruct (seg_fold_counters sent_tokens seg_init) as [-> _].
  simpl. lia.
Qed.

Lemma seg_loop_segments sent_tokens :
  (S (pieces_total sent_tokens) < MAX_WORDPIECES)%nat →
  sent_segments (seg_loop sent_tokens)
  = [-1] ++ word_runs 0 sent_tokens
    ++ replicate (MAX_WORDPIECES - 1 - pieces_total sent_tokens) (-1).
Proof.
  intros Hlt. unfold seg_loop, seg_init.
  change 0 with (Z.of_nat 0) at 2.
  rewrite seg_fold_spec by (rewrite length_replicate; lia). simpl.
  rewrite take_replicate, drop_replicate.
  replace (1 `min` MAX_WORDPIECES)%nat with 1%nat by lia.
  simpl. do 3 f_equal. lia.
Qed.

(** *** What the runs look like *)

Lemma word_runs_range s sent_tokens v :
  v ∈ word_runs s sent_tokens →
  Z.of_nat s ≤ v < Z.of_nat (s + length sent_tokens).
Proof.
  revert s. induction sent_tokens as [|t r IH]; intros s.
  - rewrite word_runs_nil. by intros ?%elem_of_nil.
  - rewrite word_runs_cons, elem_of_app. intros [Hin|Hin].
    + apply elem_of_replicate in Hin as [-> _]. simpl. lia.
    + apply IH in Hin. simpl. lia.
Qed.

Lemma nondecreasing_app l1 l2 :
  nondecreasing l1 → nondecreasing l2 →
  (∀ x y, x ∈ l1 → y ∈ l2 → x ≤ y) →
  nondecreasing (l1 ++ l2).
Proof.
  intros H1 H2 H12 i j x y Hij Hi Hj.
  apply lookup_app_Some in Hi as [Hi|[Hli Hi]];
    apply lookup_app_Some in Hj as [Hj|[Hlj Hj]].
  - eapply H1; eauto.
  - eapply H12; eapply list_elem_of_lookup_2; eauto.
  - apply lookup_lt_Some in Hj. lia.
  - eapply (H2 (i - length l1)%nat (j - length l1)%nat); eauto. lia.
Qed.

Lemma nondecreasing_replicate n v : nondecreasing (replicate n v).
Proof.
  intros i j x y _ Hi Hj.
  apply lookup_replicate in Hi as [-> _]. apply lookup_replicate in Hj as [-> _]. lia.
Qed.

Lemma word_runs_nondecreasing s sent_tokens :
  nondecreasing (word_runs s sent_tokens).
Proof.
  revert s. induction sent_tokens as [|t r IH]; intros s.
  - intros i j x y _ Hi. by rewrite word_runs_nil in Hi.
  - rewrite word_runs_cons. apply nondecreasing_app.
    + apply nondecreasing_replicate.
    + apply IH.
    + intros x y Hx Hy. apply elem_of_replicate in Hx as [-> _].
      apply word_runs_range in Hy. lia.
Qed.

Lemma occurrences_app v l1 l2 :
  occurrences v (l1 ++ l2) = (occurrences v l1 + occurrences v l2)%nat.
Proof. unfold occurrences. by rewrite filter_app, length_app. Qed.

Lemma occurrences_replicate_eq v n : occurrences v (replicate n v) = n.
Proof.
  unfold occurrences. induction n as [|n IH]; [done|]. simpl.
  rewrite filter_cons_True by done. simpl. by rewrite IH.
Qed.

Lemma occurrences_absent v l : v ∉ l → occurrences v l = 0%nat.
Proof.
  unfold occurrences. induction l as [|x l IH]; intros Hnin; [done|].
  apply not_elem_of_cons in Hnin as [Hne Hnin].
  rewrite filter_cons_False by congruence. auto.
Qed.

Lemma word_runs_occurrences s sent_tokens w token :
  sent_tokens !! w = Some token →
  occurrences (Z.of_nat (s + w)) (word_runs s sent_tokens) = length (tokenize token).
Proof.
  revert s w. induction sent_tokens as [|t r IH]; intros s w Hw; [done|].
  rewrite word_runs_cons, occurrences_app. destruct w as [|w]; simpl in Hw.
  - injection Hw as ->. rewrite Nat.add_0_r, occurrences_replicate_eq.
    rewrite occurrences_absent; [lia|].
    intros Hin%word_runs_range. lia.
  - rewrite occurrences_absent.
    + replace (s + S w)%nat with (S s + w)%nat by lia. by rewrite IH.
    + intros [Heq _]%elem_of_replicate. lia.
Qed.

Lemma non_sentinel_word_runs s sent_tokens :
  non_sentinel (word_runs s sent_tokens) = word_runs s sent_tokens.
Proof.
  unfold non_sentinel. apply filter_all, Forall_forall.
  intros v Hv%word_runs_range. lia.
Qed.

Lemma non_sentinel_replicate n : non_sentinel (replicate n (-1)) = [].
Proof.
  unfold non_sentinel. induction n as [|n IH]; [done|]. simpl.
  by rewrite filter_cons_False by (intros H; by apply H).
Qed.

(** *** The loop over the sentences *)

Lemma elem_of_length_rejections j i0 sents :
  j ∈ length_rejections i0 sents
  ↔ ∃ k sent, j = (i0 + k)%nat ∧ sents !! k = Some sent ∧ too_long sent = true.
Proof.
  revert i0. induction sents as [|t r IH]; intros i0; simpl.
  - split; [by intros ?%elem_of_nil|]. by intros (k & sent & _ & ? & _).
  - destruct (too_long t) eqn:Ht.
    + rewrite elem_of_cons, IH. split.
      * intros [->|(k & sent & -> & Hk & Hs)].
        -- exists 0%nat, t. split_and!; [lia|done|done].
        -- exists (S k), sent. split_and!; [lia|done|done].
      * intros ([|k] & sent & -> & Hk & Hs).
        -- left. lia.
        -- right. exists k, sent. split_and!; [lia|done|done].
    + rewrite IH. split.
      * intros (k & sent & -> & Hk & Hs).
        exists (S k), sent. split_and!; [lia|done|done].
      * intros ([|k] & sent & -> & Hk & Hs).
        -- simpl in Hk. congruence.
        -- exists k, sent. split_and!; [lia|done|done].
Qed.

Lemma survives_false sent :
  survives sent = false
  ↔ too_long sent = true
    ∨ S (wordpiece_pointer (seg_loop sent)) ≠ length (sent_wordpieces sent).
Proof.
  unfold survives. destruct (too_long sent); simpl.
  - split; auto.
  - rewrite bool_decide_eq_false. split; [auto|]. by intros [?|?].
Qed.

Lemma survives_true sent :
  survives sent = true
  ↔ too_long sent = false
    ∧ S (wordpiece_pointer (seg_loop sent)) = length (sent_wordpieces sent).
Proof.
  unfold survives. destruct (too_long sent); simpl.
  - split; [done|]. by intros [? _].
  - rewrite bool_decide_eq_true. split; [auto|]. by intros [_ ?].
Qed.

(** The second loop from any state whose rejection list agrees with the
    length checks on the sentences still to come. *)
Lemma examples_fold_spec rest ex :
  (∀ k sent, rest !! k = Some sent →
     (sent_idx ex + k)%nat ∈ indices_to_rm ex ↔ too_long sent = true) →
  let ex' := foldl example_step ex rest in
  bert_ids ex' = bert_ids ex
      ++ map (λ sent, get_bert_ids (sent_wordpieces sent)) (filter (λ sent, survives sent) rest)
  ∧ segments ex' = segments ex
      ++ map (λ sent, sent_segments (seg_loop sent)) (filter (λ sent, survives sent) rest)
  ∧ max_segment ex' = max_segment ex
      ++ map (λ sent, segment_id (seg_loop sent)) (filter (λ sent, survives sent) rest)
  ∧ sent_idx ex' = (sent_idx ex + length rest)%nat
  ∧ ∀ j, j ∈ indices_to_rm ex'
         ↔ j ∈ indices_to_rm ex
           ∨ ∃ k sent, j = (sent_idx ex + k)%nat ∧ rest !! k = Some sent
                       ∧ survives sent = false.
Proof.
  revert ex. induction rest as [|t r IH]; intros ex Hinv; simpl.
  - rewrite !app_nil_r. split_and!; [done|done|done|lia|].
    intros j. split; [auto|]. intros [?|(k & sent & _ & ? & _)]; done.
  - assert (Hhead : sent_idx ex ∈ indices_to_rm ex ↔ too_long t = true).
    { rewrite <- (Hinv 0%nat t eq_refl). by rewrite Nat.add_0_r. }
    assert (Hnext : ∀ ex1, sent_idx ex1 = S (sent_idx ex) →
              (∀ j, j ∈ indices_to_rm ex1 ↔ j ∈ indices_to_rm ex ∨
                    (j = sent_idx ex ∧ j ∈ indices_to_rm ex1)) →
              ∀ k sent, r !! k = Some sent →
                (sent_idx ex1 + k)%nat ∈ indices_to_rm ex1 ↔ too_long sent = true).
    { intros ex1 Hidx Hrm k sent Hk. rewrite Hidx, Hrm.
      rewrite <- (Hinv (S k) sent Hk).
      replace (S (sent_idx ex) + k)%nat with (sent_idx ex + S k)%nat by lia.
      split; [|auto]. intros [?|[? _]]; [done|lia]. }
    unfold example_step at 2 4 6 8 10.
    destruct (decide (sent_idx ex ∈ indices_to_rm ex)) as [Hin|Hnin].
    + (* rejected by the first loop *)
      assert (Hs : survives t = false) by (apply survives_false; left; by apply Hhead).
      rewrite filter_cons_False by (rewrite Hs; auto).
      match goal with |- context [foldl example_step ?e r] => set (ex1 := e) end.
      destruct (IH ex1) as (Hb & Hsg & Hm & Hi & Hr).
      { apply Hnext; [done|]. intros j. simpl. tauto. }
      rewrite Hb, Hsg, Hm, Hi. simpl. split_and!; [done|done|done|lia|].
      intros j. rewrite Hr. simpl. split.
      * intros [?|(k & sent & -> & Hk & Hsv)]; [by left|].
        right. exists (S k), sent. split_and!; [lia|done|done].
      * intros [?|([|k] & sent & -> & Hk & Hsv)]; [by left| |].
        -- left. by rewrite Nat.add_0_r.
        -- right. exists k, sent. split_and!; [lia|done|done].
    + assert (Ht : too_long t = false).
      { destruct (too_long t); [|done]. exfalso. by apply Hnin, Hhead. }
      case_bool_decide as Hmis.
      * (* rejected by the consistency check *)
        assert (Hs : survives t = false) by (apply survives_false; by right).
        rewrite filter_cons_False by (rewrite Hs; auto).
        match goal with |- context [foldl example_step ?e r] => set (ex1 := e) end.
        destruct (IH ex1) as (Hb & Hsg & Hm & Hi & Hr).
        { apply Hnext; [done|]. intros j. simpl. rewrite elem_of_app, list_elem_of_singleton.
          tauto. }
        rewrite Hb, Hsg, Hm, Hi. simpl. split_and!; [done|done|done|lia|].
        intros j. rewrite Hr. simpl. rewrite elem_of_app, list_elem_of_singleton. split.
        -- intros [[?| ->]|[k [sent [-> [Hk Hsv]]]]]; [by left| |].
           ++ right. exists 0%nat, t. split_and!; [lia|done|done].
           ++ right. exists (S k), sent. split_and!; [lia|done|done].
        -- intros [?|[[|k] [sent [-> [Hk Hsv]]]]]; [by left; left| |].
           ++ left. right. lia.
           ++ right. exists k, sent. split_and!; [lia|done|done].
      * (* kept *)
        assert (Hs : survives t = true).
        { apply survives_true. split; [done|]. lia. }
        rewrite filter_cons_True by (rewrite Hs; done).
        match goal with |- context [foldl example_step ?e r] => set (ex1 := e) end.
        destruct (IH ex1) as (Hb & Hsg & Hm & Hi & Hr).
        { apply Hnext; [done|]. intros j. simpl. tauto. }
        rewrite Hb, Hsg, Hm, Hi. simpl. rewrite <- !app_assoc. simpl.
        split_and!; [done|done|done|lia|].
        intros j. rewrite Hr. simpl. split.
        -- intros [?|(k & sent & -> & Hk & Hsv)]; [by left|].
           right. exists (S k), sent. split_and!; [lia|done|done].
        -- intros [?|([|k] & sent & -> & Hk & Hsv)]; [by left| |].
           ++ simpl in Hk. congruence.
           ++ right. exists k, sent. split_and!; [lia|done|done].
Qed.

(** *** Index removal against the same loop *)

Lemma drop_indices_filter {A} (P : A → Prop) `{∀ x, Decision (P x)}
    (rm : list nat) (i0 : nat) (l : list A) :
  (∀ k x, l !! k = Some x → (i0 + k)%nat ∈ rm ↔ ¬ P x) →
  drop_indices rm i0 l = filter P l.
Proof.
  revert i0. induction l as [|v l IH]; intros i0 Hrm; [done|]. simpl.
  assert (Hv : i0 ∈ rm ↔ ¬ P v).
  { rewrite <- (Hrm 0%nat v eq_refl). by rewrite Nat.add_0_r. }
  assert (Hl : ∀ k x, l !! k = Some x → (S i0 + k)%nat ∈ rm ↔ ¬ P x).
  { intros k x Hk. rewrite <- (Hrm (S k) x Hk).
    by replace (S i0 + k)%nat with (i0 + S k)%nat by lia. }
  destruct (decide (i0 ∈ rm)) as [Hin|Hnin].
  - rewrite filter_cons_False by (by apply Hv). by apply IH.
  - rewrite filter_cons_True.
    + f_equal. by apply IH.
    + destruct (decide (P v)) as [?|Hn]; [done|]. exfalso. by apply Hnin, Hv.
Qed.

Lemma remove_field_filter {A} (P : A → Prop) `{∀ x, Decision (P x)}
    (rm : list nat) (l : list A) :
  (∀ k x, l !! k = Some x → k ∈ rm ↔ ¬ P x) →
  remove_field rm l = filter P l.
Proof.
  intros Hrm. destruct l as [|v l]; [done|].
  unfold remove_field. by apply drop_indices_filter.
Qed.

Lemma run_examples_spec (c : corpus) :
  let kept := filter (λ sent, survives sent) (tokens c) in
  let ex := run_examples c in
  bert_ids ex = map (λ sent, get_bert_ids (sent_wordpieces sent)) kept
  ∧ segments ex = map (λ sent, sent_segments (seg_loop sent)) kept
  ∧ max_segment ex = map (λ sent, segment_id (seg_loop sent)) kept
  ∧ ∀ j, j ∈ indices_to_rm ex
         ↔ ∃ sent, tokens c !! j = Some sent ∧ survives sent = false.
Proof.
  intros kept ex. subst kept ex. unfold run_examples.
  match goal with |- context [foldl example_step ?e _] => set (ex0 := e) end.
  destruct (examples_fold_spec (tokens c) ex0) as (Hb & Hsg & Hm & _ & Hr).
  { intros k sent Hk. simpl. rewrite elem_of_length_rejections. split.
    - intros (k' & sent' & Heq & Hk' & Hs). assert (k' = k) as -> by lia. congruence.
    - intros Hs. by exists k, sent. }
  rewrite Hb, Hsg, Hm. split_and!; [done|done|done|].
  intros j. rewrite Hr. simpl. rewrite elem_of_length_rejections. split.
  - intros [(k & sent & -> & Hk & Hs)|(k & sent & -> & Hk & Hs)].
    + exists sent. split; [done|]. apply survives_false. by left.
    + by exists sent.
  - intros (sent & Hj & Hs). right. by exists j, sent.
Qed.

Lemma training_examples_tokens (c : corpus) :
  tokens (training_examples c).2 = filter (λ sent, survives sent) (tokens c).
Proof.
  unfold training_examples. simpl.
  destruct (run_examples_spec c) as (_ & _ & _ & Hr).
  apply remove_field_filter. intros k x Hk. rewrite Hr. split.
  - intros (sent & Hs & Hf). assert (sent = x) as -> by congruence.
    rewrite Hf. auto.
  - intros Hn. exists x. split; [done|]. by destruct (survives x).
Qed.

(** A kept sentence at index [i] lands at the position that counts the kept
    sentences before it. *)
Lemma filter_lookup_kept {A} (P : A → Prop) `{∀ x, Decision (P x)}
    (l : list A) (i : nat) (x : A) :
  l !! i = Some x → P x →
  filter P l !! length (filter P (take i l)) = Some x.
Proof.
  intros Hi Hx.
  assert (filter P l = filter P (take i l) ++ x :: filter P (drop (S i) l)) as ->.
  { rewrite <- (filter_cons_True P x) by done.
    by rewrite <- filter_app, take_drop_middle. }
  rewrite lookup_app_r by lia. by rewrite Nat.sub_diag.
Qed.

Lemma length_sent_wordpieces sent :
  length (sent_wordpieces sent) = S (S (length (tokenize (join_space sent)))).
Proof. unfold sent_wordpieces. simpl. rewrite length_app. simpl. lia. Qed.

(** The position of the [k]-th kept sentence carries the results of its loop. *)
Lemma training_examples_kept (c : corpus) (i : nat) (sent : list string) :
  tokens c !! i = Some sent → survives sent = true →
  let k := length (filter (λ s, survives s) (take i (tokens c))) in
  tokens (training_examples c).2 !! k = Some sent
  ∧ (training_examples c).1.1.2 !! k = Some (sent_segments (seg_loop sent))
  ∧ (training_examples c).1.2 !! k = Some (segment_id (seg_loop sent)).
Proof.
  intros Hi Hs k. subst k.
  assert (HP : Is_true (survives sent)) by (by rewrite Hs).
  assert (Hk := filter_lookup_kept (λ s, survives s) (tokens c) i sent Hi HP).
  rewrite training_examples_tokens.
  destruct (run_examples_spec c) as (_ & Hsg & Hm & _).
  unfold training_examples. simpl. rewrite Hsg, Hm, !list_lookup_fmap, Hk. done.
Qed.

Lemma elem_of_word_runs s sent_tokens v :
  v ∈ word_runs s sent_tokens
  ↔ ∃ w token, v = Z.of_nat (s + w) ∧ sent_tokens !! w = Some token
               ∧ tokenize token ≠ [].
Proof.
  revert s. induction sent_tokens as [|t r IH]; intros s.
  - rewrite word_runs_nil. split; [by intros ?%elem_of_nil|].
    by intros (w & token & _ & ? & _).
  - rewrite word_runs_cons, elem_of_app, elem_of_replicate, IH. split.
    + intros [[-> Hn]|(w & token & -> & Hw & Hne)].
      * exists 0%nat, t. split_and!; [f_equal; lia|done|].
        intros Hnil. by rewrite Hnil in Hn.
      * exists (S w), token. split_and!; [f_equal; lia|done|done].
    + intros ([|w] & token & -> & Hw & Hne).
      * injection Hw as ->. left. split; [f_equal; lia|].
        by destruct (tokenize token).
      * right. exists w, token. split_and!; [f_equal; lia|done|done].
Qed.

(** C1, as the code has it. A sentence within both length limits whose joined
    tokenization is as long as its per-word tokenizations together is kept,
    and its segment map has the length of the wordpiece limit; its entries
    other than the sentinel are non-decreasing word indices below the word
    count, index [w] occurs exactly as often as the tokenizer splits word [w]
    in isolation, and the sentinel -1 stands exactly at position 0 and at the
    positions after the last wordpiece (end marker and padding). The indices
    that occur are exactly those of the words with at least one wordpiece. *)
Theorem segment_map_spec (c : corpus) (i : nat) (sent : list string) :
  tokens c !! i = Some sent →
  (length sent < MAX_TOKENS)%nat →
  (length (sent_wordpieces sent) < MAX_WORDPIECES)%nat →
  length (tokenize (join_space sent)) = pieces_total sent →
  let k := length (filter (λ s, survives s) (take i (tokens c))) in
  ∃ seg,
    tokens (training_examples c).2 !! k = Some sent
    ∧ (training_examples c).1.1.2 !! k = Some seg
    ∧ length seg = MAX_WORDPIECES
    ∧ nondecreasing (non_sentinel seg)
    ∧ (∀ v, v ∈ non_sentinel seg → 0 ≤ v < Z.of_nat (length sent))
    ∧ (∀ w token, sent !! w = Some token →
         occurrences (Z.of_nat w) seg = length (tokenize token))
    ∧ (∀ p, (p < MAX_WORDPIECES)%nat →
         seg !! p = Some (-1) ↔ (p = 0 ∨ pieces_total sent < p)%nat)
    ∧ (∀ v, v ∈ non_sentinel seg
            ↔ ∃ w token, v = Z.of_nat w ∧ sent !! w = Some token
                         ∧ tokenize token ≠ []).
Proof.
  intros Hi Hwords Hpieces Hagree k.
  assert (Hlen := length_sent_wordpieces sent).
  assert (Hs : survives sent = true).
  { apply survives_true. split.
    - unfold too_long. rewrite !bool_decide_eq_false_2 by lia. done.
    - rewrite seg_loop_pointer. lia. }
  destruct (training_examples_kept c i sent Hi Hs) as (Ht & Hsg & _).
  exists (sent_segments (seg_loop sent)). split; [done|]. split; [done|].
  rewrite seg_loop_segments by lia.
  set (n := pieces_total sent) in *.
  assert (Hns : non_sentinel ([-1] ++ word_runs 0 sent
                  ++ replicate (MAX_WORDPIECES - 1 - n) (-1)) = word_runs 0 sent).
  { unfold non_sentinel. rewrite !filter_app.
    fold (non_sentinel (word_runs 0 sent)).
    fold (non_sentinel (replicate (MAX_WORDPIECES - 1 - n) (-1))).
    rewrite non_sentinel_word_runs, non_sentinel_replicate, app_nil_r.
    by rewrite filter_cons_False by (intros H; by apply H). }
  rewrite Hns. split_and!.
  - rewrite !length_app, length_replicate, word_runs_length. simpl. lia.
  - apply word_runs_nondecreasing.
  - intros v Hv%word_runs_range. lia.
  - intros w token Hw. rewrite !occurrences_app.
    rewrite (occurrences_absent _ [-1]).
    2:{ rewrite list_elem_of_singleton. lia. }
    rewrite (occurrences_absent _ (replicate _ _)).
    2:{ intros [? _]%elem_of_replicate. lia. }
    rewrite <- (word_runs_occurrences 0 sent w token Hw). simpl. lia.
  - intros p Hp. destruct p as [|p]; simpl.
    { split; [auto|done]. }
    destruct (decide (p < n)%nat) as [Hin|Hout].
    + rewrite lookup_app_l by (rewrite word_runs_length; lia).
      split; [|lia]. intros Hv%list_elem_of_lookup_2%word_runs_range. lia.
    + rewrite lookup_app_r by (rewrite word_runs_length; lia).
      rewrite word_runs_length, lookup_replicate_2 by lia.
      split; [lia|done].
  - intros v. apply elem_of_word_runs.
Qed.

Lemma kept_positions (c : corpus) (k : nat) (sent : list string) :
  tokens (training_examples c).2 !! k = Some sent →
  survives sent = true
  ∧ (training_examples c).1.1.2 !! k = Some (sent_segments (seg_loop sent))
  ∧ (training_examples c).1.2 !! k = Some (segment_id (seg_loop sent)).
Proof.
  rewrite training_examples_tokens. intros Hk.
  destruct (run_examples_spec c) as (_ & Hsg & Hm & _).
  unfold training_examples. simpl. rewrite Hsg, Hm, !list_lookup_fmap, Hk.
  split; [|done].
  apply list_elem_of_lookup_2, list_elem_of_filter in Hk as [Hs _].
  by destruct (survives sent).
Qed.

(** C4, as the code has it. The [max_segment] entry of a kept sentence is its
    word count (the number of words, as the docstring of [training_examples]
    says), and every entry of the sentence's segment map is smaller. *)
Theorem max_segment_is_word_count (c : corpus) (k : nat) (sent : list string) :
  tokens (training_examples c).2 !! k = Some sent →
  ∃ m seg,
    (training_examples c).1.2 !! k = Some m
    ∧ (training_examples c).1.1.2 !! k = Some seg
    ∧ m = Z.of_nat (length sent)
    ∧ ∀ v, v ∈ seg → v < m.
Proof.
  intros Hk. destruct (kept_positions c k sent Hk) as (Hs & Hsg & Hm).
  exists (segment_id (seg_loop sent)), (sent_segments (seg_loop sent)).
  split_and!; [done|done|apply seg_loop_id|].
  apply survives_true in Hs as [Hlong Hptr].
  unfold too_long in Hlong. repeat case_bool_decide; try done.
  rewrite seg_loop_pointer in Hptr.
  rewrite seg_loop_segments, seg_loop_id by lia.
  intros v. rewrite !elem_of_app, list_elem_of_singleton.
  intros [->|[Hv%word_runs_range|[-> _]%elem_of_replicate]]; lia.
Qed.

(** C7, as the code has it. A sentence that passes both length checks is kept
    exactly when the final wordpiece pointer plus one (for the end marker)
    is the length of the joined wordpiece sequence with its two markers; the
    pointer is 1 plus the per-word counts, so this says that the per-word
    counts add up to the length of the joined tokenization. *)
Theorem consistency_check (c : corpus) (i : nat) (sent : list string) :
  tokens c !! i = Some sent →
  (length sent < MAX_TOKENS)%nat →
  (length (sent_wordpieces sent) < MAX_WORDPIECES)%nat →
  wordpiece_pointer (seg_loop sent) = (1 + pieces_total sent)%nat
  ∧ (i ∉ indices_to_rm (run_examples c)
     ↔ (wordpiece_pointer (seg_loop sent) + 1)%nat = length (sent_wordpieces sent))
  ∧ ((wordpiece_pointer (seg_loop sent) + 1)%nat = length (sent_wordpieces sent)
     ↔ pieces_total sent = length (tokenize (join_space sent))).
Proof.
  intros Hi Hwords Hpieces.
  assert (Hlong : too_long sent = false).
  { unfold too_long. rewrite !bool_decide_eq_false_2 by lia. done. }
  destruct (run_examples_spec c) as (_ & _ & _ & Hr).
  rewrite seg_loop_pointer, length_sent_wordpieces. split_and!; [done| |lia].
  rewrite Hr. split.
  - intros Hkeep. destruct (survives sent) eqn:Hs.
    + apply survives_true in Hs as [_ Hs].
      rewrite seg_loop_pointer, length_sent_wordpieces in Hs. lia.
    + exfalso. apply Hkeep. by exists sent.
  - intros Heq (sent' & Hi' & Hs). assert (sent' = sent) as -> by congruence.
    apply survives_false in Hs as [Hs|Hs]; [congruence|].
    rewrite seg_loop_pointer, length_sent_wordpieces in Hs. lia.
Qed.

(** *** Further facts on [training_examples] *)

Lemma seg_fold_length sent_tokens st :
  length (sent_segments (foldl seg_step st sent_tokens)) = length (sent_segments st).
Proof.
  revert st. induction sent_tokens as [|t r IH]; intros st; [done|].
  simpl. rewrite IH. unfold seg_step. simpl. apply slice_assign_length.
Qed.

Lemma seg_loop_length sent_tokens :
  length (sent_segments (seg_loop sent_tokens)) = MAX_WORDPIECES.
Proof.
  unfold seg_loop. rewrite seg_fold_length. unfold seg_init. simpl.
  apply length_replicate.
Qed.

(** X1. The three tensors that [training_examples] returns have one row per
    sentence left in the corpus, and every segment map has the length of the
    wordpiece limit, whatever the tokenizer does (the slice assignment is
    clipped, the array never grows). *)
Theorem training_examples_rows (c : corpus) :
  length (training_examples c).1.1.1 = length (tokens (training_examples c).2)
  ∧ length (training_examples c).1.1.2 = length (tokens (training_examples c).2)
  ∧ length (training_examples c).1.2 = length (tokens (training_examples c).2)
  ∧ ∀ seg, seg ∈ (training_examples c).1.1.2 → length seg = MAX_WORDPIECES.
Proof.
  rewrite training_examples_tokens.
  destruct (run_examples_spec c) as (Hb & Hsg & Hm & _).
  unfold training_examples. simpl. rewrite Hb, Hsg, Hm, !length_map.
  split_and!; try done.
  intros seg (sent & -> & _)%list_elem_of_fmap. apply seg_loop_length.
Qed.

(** X2. When the tokenizer gives one id per wordpiece, every row of the
    returned wordpiece ids is the ids of the sentence's joined wordpieces
    (markers included) followed by zeros up to the wordpiece limit. *)
Theorem bert_ids_padded (c : corpus) (k : nat) (sent : list string) :
  (∀ pieces, length (convert_tokens_to_ids pieces) = length pieces) →
  tokens (training_examples c).2 !! k = Some sent →
  ∃ row,
    (training_examples c).1.1.1 !! k = Some row
    ∧ length row = MAX_WORDPIECES
    ∧ row = convert_tokens_to_ids (sent_wordpieces sent)
            ++ replicate (MAX_WORDPIECES - length (sent_wordpieces sent)) 0
    ∧ (length (sent_wordpieces sent) < MAX_WORDPIECES)%nat.
Proof.
  intros Hconv Hk. destruct (kept_positions c k sent Hk) as (Hs & _ & _).
  rewrite training_examples_tokens in Hk.
  destruct (run_examples_spec c) as (Hb & _ & _ & _).
  unfold training_examples. cbn [fst snd]. rewrite Hb, list_lookup_fmap, Hk.
  eexists. split; [reflexivity|].
  apply survives_true in Hs as [Hlong _]. unfold too_long in Hlong.
  repeat case_bool_decide; try done.
  unfold get_bert_ids. rewrite length_app, Hconv, length_replicate.
  split_and!; [lia|done|lia].
Qed.

(** X3. Every sentence left in the corpus is within both limits and passes
    the consistency check, and the sentences left are those of the corpus in
    their order: a sentence with [MAX_TOKENS] words or more is never kept. *)
Theorem kept_sentences_within_limits (c : corpus) :
  sublist (tokens (training_examples c).2) (tokens c)
  ∧ ∀ sent, sent ∈ tokens (training_examples c).2 →
      (length sent < MAX_TOKENS)%nat
      ∧ (length (sent_wordpieces sent) < MAX_WORDPIECES)%nat
      ∧ length (tokenize (join_space sent)) = pieces_total sent.
Proof.
  rewrite training_examples_tokens. split; [apply sublist_filter|].
  intros sent [Hs _]%list_elem_of_filter.
  assert (Hs' : survives sent = true) by (by destruct (survives sent)).
  apply survives_true in Hs' as [Hlong Hptr].
  unfold too_long in Hlong. repeat case_bool_decide; try done.
  rewrite seg_loop_pointer, length_sent_wordpieces in Hptr. lia.
Qed.

Lemma drop_indices_nil {A} (i : nat) (l : list A) : drop_indices [] i l = l.
Proof.
  revert i. induction l as [|v l IH]; intros i; [done|]. simpl.
  destruct (decide (i ∈ [])) as [Hin|_]; [by apply elem_of_nil in Hin|].
  by rewrite IH.
Qed.

Lemma remove_indices_nil (c : corpus) : remove_indices [] c = c.
Proof.
  destruct c as [t l p r o]. unfold remove_indices, remove_field. simpl.
  f_equal; match goal with |- match ?x with _ => _ end = _ => destruct x end;
    try done; apply drop_indices_nil.
Qed.

Lemma filter_filter_same {A} (P : A → Prop) `{∀ x, Decision (P x)} (l : list A) :
  filter P (filter P l) = filter P l.
Proof.
  apply filter_all, Forall_forall. by intros x [? _]%list_elem_of_filter.
Qed.

(** X4. Running [training_examples] again on the corpus it left rejects
    nothing more: it returns the same three tensors and leaves every field of
    the corpus as it is. *)
Theorem training_examples_stable (c : corpus) :
  training_examples (training_examples c).2 = training_examples c.
Proof.
  set (c1 := (training_examples c).2).
  assert (Htok : tokens c1 = filter (λ sent, survives sent) (tokens c))
    by apply training_examples_tokens.
  destruct (run_examples_spec c) as (Hb & Hsg & Hm & _).
  destruct (run_examples_spec c1) as (Hb1 & Hsg1 & Hm1 & Hr1).
  assert (Hnil : indices_to_rm (run_examples c1) = []).
  { apply elem_of_nil_inv. intros j [sent [Hj Hs]]%Hr1.
    rewrite Htok in Hj.
    apply list_elem_of_lookup_2, list_elem_of_filter in Hj as [Hj _].
    by rewrite Hs in Hj. }
  rewrite Htok, filter_filter_same in Hb1, Hsg1, Hm1.
  unfold training_examples at 1. rewrite Hnil, remove_indices_nil.
  rewrite Hb1, Hsg1, Hm1, <- Hb, <- Hsg, <- Hm. done.
Qed.

Lemma drop_indices_zip {A B} (rm : list nat) (i : nat) (l1 : list A) (l2 : list B) :
  drop_indices rm i (zip l1 l2) = zip (drop_indices rm i l1) (drop_indices rm i l2).
Proof.
  revert i l2. induction l1 as [|a l1 IH]; intros i [|b l2]; simpl; try done.
  - destruct (decide (i ∈ rm)); [|done]. by destruct (drop_indices rm (S i) l1).
  - destruct (decide (i ∈ rm)); simpl; by rewrite IH.
Qed.

Lemma remove_field_zip {A B} (rm : list nat) (l1 : list A) (l2 : list B) :
  length l1 = length l2 →
  zip (remove_field rm l1) (remove_field rm l2) = remove_field rm (zip l1 l2).
Proof.
  destruct l1 as [|a l1], l2 as [|b l2]; try done. intros _.
  unfold remove_field. symmetry. apply (drop_indices_zip rm 0 (a :: l1) (b :: l2)).
Qed.

Lemma kept_alongside {B} (c : corpus) (field : list B) :
  length field = length (tokens c) →
  zip (tokens (training_examples c).2)
      (remove_field (indices_to_rm (run_examples c)) field)
  = filter (λ p, survives p.1) (zip (tokens c) field).
Proof.
  intros Hlen. unfold training_examples. simpl.
  rewrite remove_field_zip by done.
  destruct (run_examples_spec c) as (_ & _ & _ & Hr).
  apply remove_field_filter. intros k [sent x] Hk. rewrite Hr. simpl.
  apply lookup_zip_with_Some in Hk as (sent' & x' & [= <- <-] & Hs & _).
  split.
  - intros (sent' & Hs' & Hf). assert (sent' = sent) as -> by congruence.
    rewrite Hf. auto.
  - intros Hn. exists sent. split; [done|]. by destruct (survives sent).
Qed.

(** X5. A field that holds one entry per sentence stays beside the tokens
    through [training_examples]: the pairs of a kept sentence and its lemmas
    (tags, relations) afterwards are the pairs from before whose sentence is
    kept, in their order. *)
Theorem training_examples_keeps_fields_beside (c : corpus) :
  length (lemmas c) = length (tokens c) →
  length (pos c) = length (tokens c) →
  length (relations c) = length (tokens c) →
  zip (tokens (training_examples c).2) (lemmas (training_examples c).2)
    = filter (λ p, survives p.1) (zip (tokens c) (lemmas c))
  ∧ zip (tokens (training_examples c).2) (pos (training_examples c).2)
    = filter (λ p, survives p.1) (zip (tokens c) (pos c))
  ∧ zip (tokens (training_examples c).2) (relations (training_examples c).2)
    = filter (λ p, survives p.1) (zip (tokens c) (relations c)).
Proof.
  intros Hl Hp Hr. split_and!.
  - apply (kept_alongside c (lemmas c) Hl).
  - apply (kept_alongside c (pos c) Hp).
  - apply (kept_alongside c (relations c) Hr).
Qed.

(** The segment map and the word count of a kept sentence, as the pooling of
    the probe reads them. *)
Lemma kept_segment_bounds (c : corpus) (k : nat) (sent : list string) :
  tokens (training_examples c).2 !! k = Some sent →
  ∃ seg,
    (training_examples c).1.1.2 !! k = Some seg
    ∧ (training_examples c).1.2 !! k = Some (Z.of_nat (length sent))
    ∧ length seg = MAX_WORDPIECES
    ∧ Forall (λ v, v < Z.of_nat (length sent)) seg.
Proof.
  intros Hk. destruct (kept_positions c k sent Hk) as (Hs & Hsg & Hm).
  exists (sent_segments (seg_loop sent)). rewrite seg_loop_id in Hm.
  split_and!; [done|done|apply seg_loop_length|].
  apply survives_true in Hs as [Hlong Hptr].
  unfold too_long in Hlong. repeat case_bool_decide; try done.
  rewrite seg_loop_pointer in Hptr. rewrite seg_loop_segments by lia.
  apply Forall_forall. intros v. rewrite !elem_of_app, list_elem_of_singleton.
  intros [->|[Hv%word_runs_range|[-> _]%elem_of_replicate]]; lia.
Qed.

End Aligner.

(** *** [read_conllu] *)

(** The one-line string ['\n']. *)
Definition newline : string := String "010"%char "".

(** [str.isspace] on the ASCII range. *)
Definition py_isspace (a : ascii) : bool :=
  let n := nat_of_ascii a in
  bool_decide (9 ≤ n ≤ 13 ∨ 28 ≤ n ≤ 32)%nat.

Fixpoint lstrip (l : list ascii) : list ascii :=
  match l with
  | a :: l' => if py_isspace a then lstrip l' else l
  | [] => []
  end.

(** [s.strip()] *)
Definition strip (s : string) : string :=
  String.string_of_list_ascii
    (rev (lstrip (rev (lstrip (String.list_ascii_of_string s))))).

(** [s.split(sep)] for a one-character separator: empty fields are kept. *)
Fixpoint split_on (sep : ascii) (s : string) : list string :=
  match s with
  | EmptyString => [EmptyString]
  | String a s' =>
      if decide (a = sep) then EmptyString :: split_on sep s'
      else match split_on sep s' with
           | field :: fields => String a field :: fields
           | [] => [String a EmptyString]
           end
  end.

Definition digit_of (a : ascii) : option Z :=
  Z.of_nat <$> Ascii.is_nat a.

(** [s.isdigit()] on ASCII text: not empty and digits only. *)
Definition isdigit (s : string) : bool :=
  match String.list_ascii_of_string s with
  | [] => false
  | l => forallb (λ a, bool_decide (is_Some (digit_of a))) l
  end.

(** The digits of a Python integer literal, single underscores allowed
    between them. *)
Fixpoint digits_go (acc : Z) (prev_digit : bool) (l : list ascii) : option Z :=
  match l with
  | [] => if prev_digit then Some acc else None
  | a :: l' =>
      match digit_of a with
      | Some d => digits_go (10 * acc + d) true l'
      | None =>
          if bool_decide (a = "_"%char) && prev_digit
          then digits_go acc false l' else None
      end
  end.

(** [int(s)]: white space around, an optional sign, decimal digits. *)
Definition py_int (s : string) : result Z :=
  let body := String.list_ascii_of_string (strip s) in
  let signed :=
    match body with
    | a :: rest =>
        if bool_decide (a = "-"%char) then (-1, rest)
        else if bool_decide (a = "+"%char) then (1, rest)
        else (1, body)
    | [] => (1, body)
    end in
  match digits_go 0 false signed.2 with
  | Some n => Ok (signed.1 * n)
  | None => Err ValueError
  end.

(** [fields[k]] *)
Definition field_at (fields : list string) (k : nat) : result string :=
  match fields !! k with
  | Some f => Ok f
  | None => Err IndexError
  end.

(** What a line of the file is to the loop of [read_conllu]. *)
Inductive line_kind :=
  | Blank
  | Comment
  | NotAWord
  | Word (dep_id head_id : Z) (orth lemma tag : string).

(** The local accumulators of [read_conllu] beside the corpus. *)
Record reader := Reader {
  corp : corpus;
  sentence_relations : list (Z * Z);
  sentence_tokens : list string;
  sentence_lemmas : list string;
  sentence_pos : list string
}.

Section Reader.
(** The column numbers of the absent [constants] module. *)
Variable CONLLU_ID CONLLU_ORTH CONLLU_LEMMA CONLLU_POS CONLLU_HEAD : nat.

(** The [else] branch of the loop: a row of tab-separated fields. *)
Definition classify_row (line : string) : result line_kind :=
  let fields := split_on "009"%char (strip line) in
  id_field ←ᵣ field_at fields CONLLU_ID;
  if isdigit id_field then
    head_field ←ᵣ field_at fields CONLLU_HEAD;
    head_id ←ᵣ py_int head_field;
    dep_id ←ᵣ py_int id_field;
    orth ←ᵣ field_at fields CONLLU_ORTH;
    lemma ←ᵣ field_at fields CONLLU_LEMMA;
    tag ←ᵣ field_at fields CONLLU_POS;
    Ok (Word dep_id head_id orth lemma tag)
  else Ok NotAWord.

(** [line.startswith('#')] *)
Definition starts_with_hash (line : string) : bool :=
  match line with
  | String a _ => bool_decide (a = "#"%char)
  | EmptyString => false
  end.

Definition classify (line : string) : result line_kind :=
  if decide (line = newline) then Ok Blank
  else if starts_with_hash line then Ok Comment
  else classify_row line.

Definition commit (st : reader) : reader :=
  let c := corp st in
  {| corp := {| tokens := tokens c ++ [sentence_tokens st];
                lemmas := lemmas c ++ [sentence_lemmas st];
                pos := pos c ++ [sentence_pos st];
                relations := relations c ++ [sentence_relations st];
                roots := roots c |};
     sentence_relations := []; sentence_tokens := [];
     sentence_lemmas := []; sentence_pos := [] |}.

Definition add_word (st : reader) (dep_id head_id : Z) (orth lemma tag : string) : reader :=
  let c := corp st in
  {| corp := {| tokens := tokens c; lemmas := lemmas c; pos := pos c;
                relations := relations c;
                roots := if decide (head_id = 0) then roots c ++ [dep_id] else roots c |};
     sentence_relations := sentence_relations st ++ [(dep_id, head_id)];
     sentence_tokens := sentence_tokens st ++ [orth];
     sentence_lemmas := sentence_lemmas st ++ [lemma];
     sentence_pos := sentence_pos st ++ [tag] |}.

Definition read_line (st : reader) (line : string) : result reader :=
  kind ←ᵣ classify line;
  Ok match kind with
     | Blank => commit st
     | Comment | NotAWord => st
     | Word dep_id head_id orth lemma tag => add_word st dep_id head_id orth lemma tag
     end.

(** The file as the list of its lines, each with its line end, the last one
    perhaps without. The accumulators are dropped on return. *)
Definition read_lines (c : corpus) (lines : list string) : result reader :=
  for_each read_line (Reader c [] [] [] []) lines.

Definition read_conllu (c : corpus) (lines : list string) : result corpus :=
  st ←ᵣ read_lines c lines; Ok (corp st).

(** The root ids and the surface forms that the word rows among [lines]
    contribute. *)
Definition line_roots (line : string) : list Z :=
  match classify line with
  | Ok (Word dep_id head_id _ _ _) => if decide (head_id = 0) then [dep_id] else []
  | _ => []
  end.

Definition line_tokens (line : string) : list string :=
  match classify line with
  | Ok (Word _ _ orth _ _) => [orth]
  | _ => []
  end.

Lemma classify_row_not_blank line : classify_row line ≠ Ok Blank.
Proof.
  unfold classify_row.
  repeat (match goal with
    | |- context [rbind ?r _] => destruct r; simpl; try done
    | |- context [if ?b then _ else _] => destruct b; simpl; try done
    end).
Qed.

Lemma classify_blank line : classify line = Ok Blank → line = newline.
Proof.
  unfold classify. destruct (decide (line = newline)) as [->|_]; [done|].
  destruct (starts_with_hash line); [done|].
  intros Hc. by apply classify_row_not_blank in Hc.
Qed.

(** One line other than the blank one leaves the committed per-sentence
    fields alone; it can only extend the roots and the accumulators. *)
Lemma read_line_not_blank st line st' :
  line ≠ newline → read_line st line = Ok st' →
  tokens (corp st') = tokens (corp st)
  ∧ lemmas (corp st') = lemmas (corp st)
  ∧ pos (corp st') = pos (corp st)
  ∧ relations (corp st') = relations (corp st)
  ∧ roots (corp st') = roots (corp st) ++ line_roots line
  ∧ sentence_tokens st' = sentence_tokens st ++ line_tokens line.
Proof.
  intros Hne. unfold read_line, line_roots, line_tokens.
  destruct (classify line) as [kind|e] eqn:Hc; simpl; [|done].
  intros [= <-]. destruct kind; simpl.
  - by apply classify_blank in Hc.
  - by rewrite !app_nil_r.
  - by rewrite !app_nil_r.
  - destruct (decide (head_id = 0)); simpl; by rewrite ?app_nil_r.
Qed.

Lemma read_tail_not_blank tail st st' :
  (∀ line, line ∈ tail → line ≠ newline) →
  for_each read_line st tail = Ok st' →
  tokens (corp st') = tokens (corp st)
  ∧ lemmas (corp st') = lemmas (corp st)
  ∧ pos (corp st') = pos (corp st)
  ∧ relations (corp st') = relations (corp st)
  ∧ roots (corp st') = roots (corp st) ++ concat (map line_roots tail)
  ∧ sentence_tokens st' = sentence_tokens st ++ concat (map line_tokens tail).
Proof.
  revert st. induction tail as [|line tail IH]; intros st Hnb; simpl.
  - intros [= <-]. by rewrite !app_nil_r.
  - destruct (read_line st line) as [st1|e] eqn:Hline; simpl; [|done].
    intros Hrest.
    apply read_line_not_blank in Hline as (Ht & Hl & Hp & Hr & Ho & Hs);
      [|apply Hnb; by left].
    apply IH in Hrest as (Ht' & Hl' & Hp' & Hr' & Ho' & Hs');
      [|intros l Hl0; apply Hnb; by right].
    rewrite Ht', Hl', Hp', Hr', Ho', Hs', Ht, Hl, Hp, Hr, Ho, Hs.
    by rewrite <- !app_assoc.
Qed.

(** C9. Lines after the last blank line (a trailing sentence that no blank
    line closes) change none of the committed fields: [tokens], [lemmas],
    [pos] and [relations] come out as for the file cut before them. What the
    trailing rows do leave are their root ids, already appended to [roots],
    and their words in the local accumulator, which the return drops. *)
Theorem trailing_sentence_dropped (c : corpus) (before tail : list string) (c' : corpus) :
  (∀ line, line ∈ tail → line ≠ newline) →
  read_conllu c (before ++ tail) = Ok c' →
  ∃ c1 st',
    read_conllu c before = Ok c1
    ∧ read_lines c (before ++ tail) = Ok st' ∧ corp st' = c'
    ∧ tokens c' = tokens c1 ∧ lemmas c' = lemmas c1
    ∧ pos c' = pos c1 ∧ relations c' = relations c1
    ∧ roots c' = roots c1 ++ concat (map line_roots tail)
    ∧ ∃ open_words, sentence_tokens st' = open_words ++ concat (map line_tokens tail).
Proof.
  intros Hnb. unfold read_conllu, read_lines. rewrite for_each_app.
  destruct (for_each read_line _ before) as [st1|e]; simpl; [|done].
  destruct (for_each read_line st1 tail) as [st'|e] eqn:Htail; simpl; [|done].
  intros [= <-]. exists (corp st1), st'.
  apply read_tail_not_blank in Htail as (Ht & Hl & Hp & Hr & Ho & Hs); [|done].
  split_and!; try done. by exists (sentence_tokens st1).
Qed.

(** *** Further facts on [read_conllu] *)

Definition same_length {A B} (l1 : list A) (l2 : list B) : Prop :=
  length l1 = length l2.

(** The per-sentence fields read from the rows go together: as many
    sentences in each, and as many entries in each sentence. *)
Definition aligned (c : corpus) : Prop :=
  Forall2 same_length (tokens c) (lemmas c)
  ∧ Forall2 same_length (tokens c) (pos c)
  ∧ Forall2 same_length (tokens c) (relations c).

Definition reader_aligned (st : reader) : Prop :=
  aligned (corp st)
  ∧ same_length (sentence_tokens st) (sentence_lemmas st)
  ∧ same_length (sentence_tokens st) (sentence_pos st)
  ∧ same_length (sentence_tokens st) (sentence_relations st).

Lemma read_line_aligned st line st' :
  reader_aligned st → read_line st line = Ok st' → reader_aligned st'.
Proof.
  intros ((Hl & Hp & Hr) & Hsl & Hsp & Hsr). unfold read_line.
  destruct (classify line) as [kind|e]; simpl; [|done].
  intros [= <-]. destruct kind; simpl.
  - unfold reader_aligned, aligned, commit. simpl.
    split_and!; try done; apply Forall2_app; try done; by constructor.
  - done.
  - done.
  - unfold reader_aligned, aligned, add_word, same_length in *. simpl.
    rewrite !length_app. simpl. split_and!; try done; lia.
Qed.

Lemma read_lines_aligned lines st st' :
  reader_aligned st → for_each read_line st lines = Ok st' → reader_aligned st'.
Proof.
  revert st. induction lines as [|line lines IH]; intros st Hst; simpl.
  - by intros [= <-].
  - destruct (read_line st line) as [st1|e] eqn:Hline; simpl; [|done].
    apply IH. by eapply read_line_aligned.
Qed.

(** X6. Reading a file into an aligned corpus (the empty one, say) gives an
    aligned corpus: [tokens], [lemmas], [pos] and [relations] hold the same
    number of sentences and, sentence by sentence, the same number of words,
    so that [word_count] counts the tokens of each sentence. *)
Theorem read_conllu_aligned (c : corpus) (lines : list string) (c' : corpus) :
  aligned c →
  read_conllu c lines = Ok c' →
  aligned c' ∧ word_count c' = map length (tokens c').
Proof.
  intros Hc. unfold read_conllu, read_lines.
  destruct (for_each read_line _ lines) as [st'|e] eqn:Hread; simpl; [|done].
  intros [= <-].
  apply read_lines_aligned in Hread as [Hal _].
  2:{ split; [done|]. by split_and!. }
  split; [done|]. destruct Hal as (_ & _ & Hr). unfold word_count.
  induction Hr as [|ts rs tss rss Hlen _ IH]; [done|]. simpl.
  by rewrite IH, Hlen.
Qed.

Lemma read_line_count st line st' :
  read_line st line = Ok st' →
  length (tokens (corp st'))
  = (length (tokens (corp st)) + (if decide (line = newline) then 1 else 0))%nat.
Proof.
  destruct (decide (line = newline)) as [->|Hne].
  - unfold read_line, classify. rewrite decide_True by done. simpl.
    intros [= <-]. simpl. rewrite length_app. simpl. lia.
  - intros Hline. apply read_line_not_blank in Hline as (-> & _); [lia|done].
Qed.

(** X7. The number of sentences a read adds to the corpus is the number of
    blank lines of the file: no other line closes a sentence. *)
Theorem read_conllu_sentence_count (c : corpus) (lines : list string) (c' : corpus) :
  read_conllu c lines = Ok c' →
  length (tokens c')
  = (length (tokens c) + length (filter (λ line, line = newline) lines))%nat.
Proof.
  unfold read_conllu, read_lines.
  destruct (for_each read_line _ lines) as [st'|e] eqn:Hread; simpl; [|done].
  intros [= <-].
  change (tokens c) with (tokens (corp (Reader c [] [] [] []))).
  revert Hread. generalize (Reader c [] [] [] []).
  induction lines as [|line lines IH]; intros st; simpl.
  - intros [= <-]. simpl. lia.
  - destruct (read_line st line) as [st1|e] eqn:Hline; simpl; [|done].
    intros Hrest. apply IH in Hrest. apply read_line_count in Hline.
    rewrite Hrest, Hline. destruct (decide (line = newline)) as [Heq|Hne].
    + rewrite filter_cons_True by done. simpl. lia.
    + rewrite filter_cons_False by done. lia.
Qed.

Lemma read_line_comment st line :
  starts_with_hash line = true → read_line st line = Ok st.
Proof.
  intros Hhash. unfold read_line, classify.
  destruct (decide (line = newline)) as [->|_]; [discriminate Hhash|].
  by rewrite Hhash.
Qed.

(** X8. Comment lines do not matter: the file without its lines that start
    with [#] reads to the same result, the same corpus or the same error. *)
Theorem read_conllu_ignores_comments (c : corpus) (lines : list string) :
  read_conllu c (filter (λ line, starts_with_hash line = false) lines)
  = read_conllu c lines.
Proof.
  unfold read_conllu, read_lines. f_equal.
  generalize (Reader c [] [] [] []).
  induction lines as [|line lines IH]; intros st; [done|].
  destruct (starts_with_hash line) eqn:Hhash.
  - rewrite filter_cons_False by (by rewrite Hhash). simpl.
    rewrite read_line_comment by done. simpl. apply IH.
  - rewrite filter_cons_True by done. simpl.
    destruct (read_line st line); simpl; [apply IH|done].
Qed.

Lemma read_lines_classified lines st :
  (∀ line, line ∈ lines → ∃ kind, classify line = Ok kind) →
  ∃ st', for_each read_line st lines = Ok st'.
Proof.
  revert st. induction lines as [|line lines IH]; intros st Hok; simpl; [eauto|].
  destruct (Hok line) as [kind Hk]; [by left|].
  unfold read_line at 1. rewrite Hk. simpl.
  apply IH. intros l Hl. apply Hok. by right.
Qed.

(** X9. A read is all or nothing: the first line that does not parse (a word
    row without its columns, a head that is no integer) makes [read_conllu]
    raise that line's error, whatever was read before and whatever follows. *)
Theorem read_conllu_first_error (c : corpus) (before rest : list string)
    (line : string) (e : pyerr) :
  (∀ l, l ∈ before → ∃ kind, classify l = Ok kind) →
  classify line = Err e →
  read_conllu c (before ++ line :: rest) = Err e.
Proof.
  intros Hok Hline. unfold read_conllu, read_lines. rewrite for_each_app.
  destruct (read_lines_classified before (Reader c [] [] [] []) Hok) as [st1 ->].
  simpl. unfold read_line at 1. by rewrite Hline.
Qed.

End Reader.

(** *** The dictionary and the edge sets of a sentence *)

Lemma relation_fold_lookup (rel : list (Z * Z)) (dict : gmap Z Z) (d h : Z) :
  NoDup rel.*1 →
  foldl (λ m r, <[r.1 := r.2]> m) dict rel !! d = Some h
  ↔ (d, h) ∈ rel ∨ ((d ∉ rel.*1) ∧ dict !! d = Some h).
Proof.
  revert dict. induction rel as [|[d' h'] rel IH]; intros dict Hnd; simpl.
  - split; [intros ?; right; split; [apply not_elem_of_nil|done]|].
    intros [?%elem_of_nil|[_ ?]]; done.
  - apply NoDup_cons in Hnd as [Hfresh Hnd]. rewrite IH by done.
    rewrite elem_of_cons, not_elem_of_cons. destruct (decide (d = d')) as [->|Hne].
    + rewrite lookup_insert_eq. split.
      * intros [Hin|[Hnin [= ->]]]; [|by left; left].
        exfalso. apply Hfresh. apply list_elem_of_fmap. by exists (d', h).
      * intros [[[= ->]|Hin]|[[Hd _] _]]; [|by left|done].
        right. split; [done|done].
    + rewrite lookup_insert_ne by done. split.
      * intros [Hin|[Hnin Hd]]; [by left; right|by right].
      * intros [[[= -> _]|Hin]|[[_ Hnin] Hd]]; [done|by left|by right].
Qed.

Lemma relation_fold_size (rel : list (Z * Z)) (dict : gmap Z Z) :
  NoDup rel.*1 → (∀ d, d ∈ rel.*1 → dict !! d = None) →
  size (foldl (λ m r, <[r.1 := r.2]> m) dict rel) = (size dict + length rel)%nat.
Proof.
  revert dict. induction rel as [|[d' h'] rel IH]; intros dict Hnd Hnew; simpl.
  - lia.
  - apply NoDup_cons in Hnd as [Hfresh Hnd]. rewrite IH; [|done|].
    + rewrite map_size_insert_None by (apply Hnew; by left). lia.
    + intros d Hd. rewrite lookup_insert_ne.
      * apply Hnew. by right.
      * intros ->. done.
Qed.

(** X10. For a sentence whose rows have distinct ids, the dictionary of
    [unlabeled_relations] maps a dependent to a head exactly when the pair is
    a relation of the sentence, and it has one entry per word. *)
Theorem unlabeled_relations_lookup (c : corpus) (k : nat) (rel : list (Z * Z)) :
  relations c !! k = Some rel →
  NoDup rel.*1 →
  ∃ dict,
    unlabeled_relations c !! k = Some dict
    ∧ (∀ d h, dict !! d = Some h ↔ (d, h) ∈ rel)
    ∧ size dict = length rel.
Proof.
  intros Hk Hnd. exists (relation_dict rel). split_and!.
  - unfold unlabeled_relations. by rewrite list_lookup_fmap, Hk.
  - intros d h. unfold relation_dict. rewrite relation_fold_lookup by done.
    rewrite lookup_empty. split; [|by left]. by intros [?|[_ ?]].
  - unfold relation_dict. rewrite relation_fold_size; [by rewrite map_size_empty|done|].
    intros d _. apply lookup_empty.
Qed.

Lemma py_list_index_map {A B} (f : A → B) (l : list A) (z : Z) :
  py_list_index (map f l) z
  = match py_list_index l z with
    | Ok x => Ok (f x)
    | Err e => Err e
    end.
Proof.
  unfold py_list_index. rewrite length_map, !list_lookup_fmap.
  repeat case_bool_decide; try done.
  - by destruct (l !! Z.to_nat z).
  - by destruct (l !! Z.to_nat (Z.of_nat (length l) + z)).
Qed.

Lemma py_list_index_elem {A} (l : list A) (z : Z) (x : A) :
  py_list_index l z = Ok x → x ∈ l.
Proof.
  unfold py_list_index. repeat case_bool_decide; try done.
  - destruct (l !! Z.to_nat z) eqn:H1; [|done].
    intros [= <-]. by eapply list_elem_of_lookup_2.
  - destruct (l !! Z.to_nat (Z.of_nat (length l) + z)) eqn:H1; [|done].
    intros [= <-]. by eapply list_elem_of_lookup_2.
Qed.

(** The relations that the condition of the comprehension lets through. *)
Definition punctuation_edge (tags : list string) (rel : list (Z * Z)) (e : gset Z) : Prop :=
  ∃ d h, (d, h) ∈ rel ∧ e = {[ d; h ]} ∧ h ≠ 0
         ∧ py_list_index tags (d - 1) = Ok "PUNCT".

Lemma sentence_edges_fold (tags : list string) (rel : list (Z * Z))
    (edges edges' : gset (gset Z)) :
  for_each (add_edge (sentence_mask tags)) edges rel = Ok edges' →
  ∀ e, e ∈ edges' ↔ e ∈ edges ∨ punctuation_edge tags rel e.
Proof.
  revert edges. induction rel as [|[d h] rel IH]; intros edges; simpl.
  - intros [= <-] e. split; [by left|].
    intros [?|(d & h & ?%elem_of_nil & _)]; done.
  - unfold add_edge at 1. simpl. unfold sentence_mask at 1.
    rewrite py_list_index_map.
    destruct (py_list_index tags (d - 1)) as [tag|err] eqn:Htag; simpl; [|done].
    intros Hrest e. rewrite (IH _ Hrest e). clear IH Hrest.
    assert (Hcons : punctuation_edge tags ((d, h) :: rel) e
              ↔ (e = {[ d; h ]} ∧ h ≠ 0 ∧ tag = "PUNCT") ∨ punctuation_edge tags rel e).
    { split.
      - intros (d' & h' & [[= -> ->]|Hin]%elem_of_cons & He & Hh & Hp).
        + left. split_and!; [done|done|congruence].
        + right. by exists d', h'.
      - intros [(-> & Hh & ->)|(d' & h' & Hin & He & Hh & Hp)].
        + exists d, h. split_and!; [by left|done|done|done].
        + exists d', h'. split_and!; [by right|done|done|done]. }
    rewrite Hcons. clear Hcons.
    destruct (decide (tag = "PUNCT")) as [->|Hne];
      destruct (decide (h = 0)) as [->|Hh].
    + rewrite bool_decide_eq_false_2 by (intros H; by apply H).
      rewrite bool_decide_eq_false_2 by (intros H; by apply H). simpl. tauto.
    + rewrite bool_decide_eq_false_2 by (intros H; by apply H).
      rewrite (bool_decide_eq_true_2 (h ≠ 0)) by done. simpl.
      rewrite elem_of_union, elem_of_singleton. tauto.
    + rewrite bool_decide_eq_true_2 by done. simpl. tauto.
    + rewrite bool_decide_eq_true_2 by done. simpl. tauto.
Qed.

Lemma collect_lookup {A B} (f : A → result B) (l : list A) (ys : list B)
    (k : nat) (y : B) :
  collect f l = Ok ys → ys !! k = Some y →
  ∃ x, l !! k = Some x ∧ f x = Ok y.
Proof.
  revert ys k. induction l as [|x l IH]; intros ys k; simpl.
  - by intros [= <-].
  - destruct (f x) as [y0|e] eqn:Hx; simpl; [|done].
    destruct (collect f l) as [ys0|e]; simpl; [|done].
    intros [= <-]. destruct k as [|k]; simpl.
    + intros [= <-]. by exists x.
    + by apply IH.
Qed.

(** X11. As the code has it, [unlabeled_unordered_relations] keeps of a
    sentence exactly the relations whose dependent is tagged [PUNCT] and
    whose head is not the root, each as the unordered pair of dependent and
    head; a sentence without a [PUNCT] tag has the empty set. *)
Theorem unordered_relations_of_punctuation (c : corpus) (sets : list (gset (gset Z)))
    (k : nat) (edges : gset (gset Z)) (rel : list (Z * Z)) (tags : list string) :
  unlabeled_unordered_relations c = Ok sets →
  sets !! k = Some edges →
  relations c !! k = Some rel →
  pos c !! k = Some tags →
  (∀ e, e ∈ edges ↔ punctuation_edge tags rel e)
  ∧ ((∀ tag, tag ∈ tags → tag ≠ "PUNCT") → edges = ∅).
Proof.
  intros Hall Hk Hrel Htags. unfold unlabeled_unordered_relations in Hall.
  destruct (collect_lookup _ _ _ k edges Hall Hk) as ([rel' mask] & Hzip & Hedges).
  apply lookup_zip_with_Some in Hzip as (r & m & Heq & Hr & Hm).
  injection Heq as -> ->.
  assert (r = rel) as -> by congruence.
  unfold punctuation_mask in Hm. rewrite list_lookup_fmap, Htags in Hm.
  injection Hm as <-. simpl in Hedges. unfold sentence_edges in Hedges.
  assert (Hchar := sentence_edges_fold tags rel ∅ edges Hedges).
  assert (Hiff : ∀ e, e ∈ edges ↔ punctuation_edge tags rel e).
  { intros e. rewrite Hchar. split; [|by right].
    intros [Hin|?]; [|done]. by apply not_elem_of_empty in Hin. }
  split; [done|]. intros Hnone. apply gset_leibniz. intros e.
  rewrite Hiff. split; [|by intros ?%not_elem_of_empty].
  intros (d & h & _ & _ & _ & Hp%py_list_index_elem). by apply Hnone in Hp.
Qed.

(** *** [remove_indices] keeps the fields in step *)

Lemma drop_indices_length {A} (rm : list nat) (i0 : nat) (l : list A) :
  length (drop_indices rm i0 l)
  = length (filter (λ i, i ∉ rm) (seq i0 (length l))).
Proof.
  revert i0. induction l as [|v l IH]; intros i0; [done|]. simpl.
  destruct (decide (i0 ∈ rm)) as [Hin|Hnin].
  - rewrite filter_cons_False by (intros Hn; by apply Hn). apply IH.
  - rewrite filter_cons_True by done. simpl. by rewrite IH.
Qed.

Lemma drop_indices_lookup {A} (rm : list nat) (i0 : nat) (l : list A) (k i : nat) :
  filter (λ i, i ∉ rm) (seq i0 (length l)) !! k = Some i →
  (i0 ≤ i)%nat ∧ drop_indices rm i0 l !! k = l !! (i - i0)%nat.
Proof.
  revert i0 k. induction l as [|v l IH]; intros i0 k; [done|]. simpl.
  destruct (decide (i0 ∈ rm)) as [Hin|Hnin].
  - rewrite filter_cons_False by (intros Hn; by apply Hn).
    intros [Hle ->]%IH. split; [lia|].
    replace (i - i0)%nat with (S (i - S i0)) by lia. done.
  - rewrite filter_cons_True by done. destruct k as [|k]; simpl.
    + intros [= ->]. split; [lia|]. by rewrite Nat.sub_diag.
    + intros [Hle ->]%IH. split; [lia|].
      replace (i - i0)%nat with (S (i - S i0)) by lia. done.
Qed.

Lemma remove_field_length {A} (rm : list nat) (l : list A) :
  length (remove_field rm l) = length (survivors rm (length l)).
Proof. destruct l; [done|]. apply drop_indices_length. Qed.

Lemma remove_field_lookup {A} (rm : list nat) (l : list A) (k i : nat) :
  survivors rm (length l) !! k = Some i →
  remove_field rm l !! k = l !! i.
Proof.
  destruct l as [|v l]; [done|]. unfold remove_field, survivors.
  intros [_ ->]%drop_indices_lookup. by rewrite Nat.sub_0_r.
Qed.

Lemma elem_of_survivors (rm : list nat) (n i : nat) :
  i ∈ survivors rm n ↔ (i < n)%nat ∧ i ∉ rm.
Proof.
  unfold survivors. rewrite list_elem_of_filter, elem_of_seq. split.
  - intros [? ?]. split; [lia|done].
  - intros [? ?]. split; [done|lia].
Qed.

Lemma survivors_app (rm : list nat) (n m : nat) :
  survivors rm (n + m) = survivors rm n ++ filter (λ i, i ∉ rm) (seq n m).
Proof. unfold survivors. by rewrite seq_app, filter_app. Qed.

(** The same for a field that is shorter than the range of indices: beyond
    its end there is nothing before and nothing after. *)
Lemma remove_field_lookup_upto {A} (rm : list nat) (l : list A) (n k i : nat) :
  (length l ≤ n)%nat →
  survivors rm n !! k = Some i →
  remove_field rm l !! k = l !! i.
Proof.
  intros Hle. replace n with (length l + (n - length l))%nat by lia.
  rewrite survivors_app. intros [Hk|[Hge Hk]]%lookup_app_Some.
  - by apply remove_field_lookup.
  - rewrite (lookup_ge_None_2 (remove_field rm l)) by (by rewrite remove_field_length).
    apply list_elem_of_lookup_2, list_elem_of_filter in Hk as [_ Hi].
    apply elem_of_seq in Hi. symmetry. apply lookup_ge_None_2. lia.
Qed.

(** [remove_indices] leaves in each of the five fields exactly the entries
    of the indices that are not rejected, in their order: entry [k] of every
    field afterwards is that field's entry of one and the same original index,
    the [k]-th surviving one. *)
Lemma remove_indices_lock_step (indices_to_rm : list nat) (c : corpus) (n : nat) :
  (length (tokens c) ≤ n)%nat → (length (lemmas c) ≤ n)%nat →
  (length (pos c) ≤ n)%nat → (length (relations c) ≤ n)%nat →
  (length (roots c) ≤ n)%nat →
  let c' := remove_indices indices_to_rm c in
  let keep := survivors indices_to_rm n in
  (∀ i, i ∈ keep ↔ (i < n)%nat ∧ i ∉ indices_to_rm)
  ∧ length (tokens c') = length (survivors indices_to_rm (length (tokens c)))
  ∧ length (lemmas c') = length (survivors indices_to_rm (length (lemmas c)))
  ∧ length (pos c') = length (survivors indices_to_rm (length (pos c)))
  ∧ length (relations c') = length (survivors indices_to_rm (length (relations c)))
  ∧ length (roots c') = length (survivors indices_to_rm (length (roots c)))
  ∧ ∀ k i, keep !! k = Some i →
      tokens c' !! k = tokens c !! i ∧ lemmas c' !! k = lemmas c !! i
      ∧ pos c' !! k = pos c !! i ∧ relations c' !! k = relations c !! i
      ∧ roots c' !! k = roots c !! i.
Proof.
  intros Ht Hl Hp Hr Ho c' keep. subst c' keep. simpl.
  split; [intros i; apply elem_of_survivors|].
  rewrite !remove_field_length. split_and!; try done.
  intros k i Hk.
  split_and!; by eapply remove_field_lookup_upto.
Qed.


(** *** A concrete instance

    A tokenizer that splits at white space and gives every word one piece, ids
    that are the lengths of the pieces, and small limits. *)

Definition whitespace_tokenizer : string → list string := String.words.

Definition length_ids (wordpieces : list string) : list Z :=
  map (λ piece, Z.of_nat (String.length piece)) wordpieces.

Definition two_words : corpus :=
  Corpus [["a"; "b"]] [["a"; "b"]] [["X"; "X"]] [[(1, 0); (2, 1)]] [1].

Definition one_word : corpus :=
  Corpus [["a"]] [["a"]] [["X"]] [[(1, 0)]] [1].

Example two_words_examples :
  training_examples whitespace_tokenizer length_ids 4 8 two_words
  = ([[5; 1; 1; 5; 0; 0; 0; 0]], [[-1; 0; 1; -1; -1; -1; -1; -1]], [2], two_words).
Proof. reflexivity. Qed.

Lemma segment_map_spec_witness :
  ∃ seg,
    (training_examples whitespace_tokenizer length_ids 4 8 two_words).1.1.2 !! 0%nat
      = Some seg
    ∧ length seg = 8%nat
    ∧ occurrences 1 seg = 1%nat.
Proof.
  destruct (segment_map_spec whitespace_tokenizer length_ids 4 8 two_words 0 ["a"; "b"])
    as (seg & _ & Hseg & Hlen & _ & _ & Hocc & _).
  - reflexivity.
  - simpl. lia.
  - vm_compute. lia.
  - reflexivity.
  - exists seg. split_and!; [exact Hseg|exact Hlen|].
    exact (Hocc 1%nat "b" eq_refl).
Defined.

(** A sentence with an empty word: the tokenizer gives it no piece, in
    isolation and in the joined string alike. *)
Definition empty_word : corpus :=
  Corpus [["a"; ""; "b"]] [["a"; ""; "b"]] [["X"; "X"; "X"]]
    [[(1, 0); (2, 1); (3, 1)]] [1].

(** C1 as stated fails: this sentence is within both limits and its joined
    tokenization is as long as the per-word ones together, it is kept with
    the segment map [-1; 0; 2; -1; ...], and the index 1 of its second word
    is not among the entries: they do not cover 0..word_count-1. *)
Lemma segment_map_skips_empty_word :
  (length ["a"; ""; "b"] < 4)%nat
  ∧ (length (sent_wordpieces whitespace_tokenizer ["a"; ""; "b"]) < 8)%nat
  ∧ length (whitespace_tokenizer (join_space ["a"; ""; "b"]))
    = pieces_total whitespace_tokenizer ["a"; ""; "b"]
  ∧ (training_examples whitespace_tokenizer length_ids 4 8 empty_word).1.1.2
    = [[-1; 0; 2; -1; -1; -1; -1; -1]]
  ∧ ¬ (∀ seg,
         (training_examples whitespace_tokenizer length_ids 4 8 empty_word).1.1.2 !! 0%nat
           = Some seg →
         ∀ w, (w < length ["a"; ""; "b"])%nat → Z.of_nat w ∈ non_sentinel seg).
Proof.
  split_and!.
  - simpl. lia.
  - vm_compute. lia.
  - reflexivity.
  - reflexivity.
  - intros Hcover.
    assert (Hin := Hcover [-1; 0; 2; -1; -1; -1; -1; -1] eq_refl 1%nat ltac:(simpl; lia)).
    vm_compute in Hin.
    repeat (apply elem_of_cons in Hin as [Hin|Hin]; [discriminate Hin|]).
    by apply elem_of_nil in Hin.
Qed.

(** C4 as stated fails: the one-word sentence has the entry 1, while the
    largest id in its segment map, and its word count less one, is 0. *)
Lemma max_segment_not_max_observed :
  ¬ (∀ k m seg,
       (training_examples whitespace_tokenizer length_ids 4 8 one_word).1.2 !! k = Some m →
       (training_examples whitespace_tokenizer length_ids 4 8 one_word).1.1.2 !! k = Some seg →
       m = max_observed seg)
  ∧ ¬ (∀ k m sent,
       (training_examples whitespace_tokenizer length_ids 4 8 one_word).1.2 !! k = Some m →
       tokens (training_examples whitespace_tokenizer length_ids 4 8 one_word).2 !! k
         = Some sent →
       m = Z.of_nat (length sent) - 1).
Proof.
  split; intros H.
  - assert (Hmax := H 0%nat 1 [-1; 0; -1; -1; -1; -1; -1; -1] eq_refl eq_refl).
    vm_compute in Hmax. discriminate.
  - assert (Hcount := H 0%nat 1 ["a"] eq_refl eq_refl).
    vm_compute in Hcount. discriminate.
Qed.

Lemma max_segment_is_word_count_witness :
  ∃ m seg,
    (training_examples whitespace_tokenizer length_ids 4 8 one_word).1.2 !! 0%nat = Some m
    ∧ (training_examples whitespace_tokenizer length_ids 4 8 one_word).1.1.2 !! 0%nat
      = Some seg
    ∧ m = 1
    ∧ ∀ v, v ∈ seg → v < m.
Proof.
  apply (max_segment_is_word_count whitespace_tokenizer length_ids 4 8 one_word 0 ["a"]).
  reflexivity.
Defined.

(** C7 as stated fails: the one-word sentence is kept although its final
    pointer, 2, is not the length of the joined sequence with its markers, 3. *)
Lemma pointer_is_not_the_length :
  ¬ (0%nat ∉ indices_to_rm (run_examples whitespace_tokenizer length_ids 4 8 one_word)
     ↔ wordpiece_pointer (seg_loop whitespace_tokenizer 8 ["a"])
       = length (sent_wordpieces whitespace_tokenizer ["a"])).
Proof.
  intros [Hkeep _]. vm_compute in Hkeep.
  assert (2%nat = 3%nat) as Habs; [|discriminate].
  apply Hkeep. intros Hin. inversion Hin.
Qed.

Lemma consistency_check_witness :
  wordpiece_pointer (seg_loop whitespace_tokenizer 8 ["a"]) = 2%nat
  ∧ (0%nat ∉ indices_to_rm (run_examples whitespace_tokenizer length_ids 4 8 one_word)
     ↔ (wordpiece_pointer (seg_loop whitespace_tokenizer 8 ["a"]) + 1)%nat
       = length (sent_wordpieces whitespace_tokenizer ["a"]))
  ∧ ((wordpiece_pointer (seg_loop whitespace_tokenizer 8 ["a"]) + 1)%nat
       = length (sent_wordpieces whitespace_tokenizer ["a"])
     ↔ pieces_total whitespace_tokenizer ["a"]
       = length (whitespace_tokenizer (join_space ["a"]))).
Proof.
  apply (consistency_check whitespace_tokenizer length_ids 4 8 one_word 0 ["a"]).
  - reflexivity.
  - simpl. lia.
  - vm_compute. lia.
Defined.



(** A two-sentence file with the usual column numbers (ID 0, FORM 1, LEMMA 2,
    UPOS 3, HEAD 6); its second sentence has no blank line after it. *)

Fixpoint tab_join (fields : list string) : string :=
  match fields with
  | [] => ""
  | [f] => f
  | f :: rest => f +:+ String "009"%char (tab_join rest)
  end.

Definition conllu_row (fields : list string) : string :=
  tab_join fields +:+ newline.

Definition closed_sentence : list string :=
  [ "# sent_id = 1" +:+ newline;
    conllu_row ["1"; "Dogs"; "dog"; "NOUN"; "_"; "_"; "2"; "nsubj"; "_"; "_"];
    conllu_row ["2"; "bark"; "bark"; "VERB"; "_"; "_"; "0"; "root"; "_"; "_"];
    newline ].

Definition open_sentence : list string :=
  [ conllu_row ["1"; "Stop"; "stop"; "VERB"; "_"; "_"; "0"; "root"; "_"; "_"] ].

Definition file_corpus : corpus :=
  Corpus [["Dogs"; "bark"]] [["dog"; "bark"]] [["NOUN"; "VERB"]] [[(1, 2); (2, 0)]] [2; 1].

Example read_open_file :
  read_conllu 0 1 2 3 6 empty_corpus (closed_sentence ++ open_sentence) = Ok file_corpus.
Proof. vm_compute. reflexivity. Qed.

Lemma trailing_sentence_dropped_witness :
  ∃ c1 st',
    read_conllu 0 1 2 3 6 empty_corpus closed_sentence = Ok c1
    ∧ read_lines 0 1 2 3 6 empty_corpus (closed_sentence ++ open_sentence) = Ok st'
    ∧ corp st' = file_corpus
    ∧ tokens file_corpus = tokens c1 ∧ lemmas file_corpus = lemmas c1
    ∧ pos file_corpus = pos c1 ∧ relations file_corpus = relations c1
    ∧ roots file_corpus = roots c1 ++ concat (map (line_roots 0 1 2 3 6) open_sentence)
    ∧ ∃ open_words,
        sentence_tokens st'
        = open_words ++ concat (map (line_tokens 0 1 2 3 6) open_sentence).
Proof.
  apply (trailing_sentence_dropped 0 1 2 3 6 empty_corpus closed_sentence open_sentence
           file_corpus).
  - intros line Hin. apply list_elem_of_singleton in Hin. subst line.
    vm_compute. intros Heq. discriminate Heq.
  - vm_compute. reflexivity.
Defined.




(** *** The further facts on the concrete instance *)

Lemma bert_ids_padded_witness :
  ∃ row,
    (training_examples whitespace_tokenizer length_ids 4 8 two_words).1.1.1 !! 0%nat
      = Some row
    ∧ length row = 8%nat.
Proof.
  destruct (bert_ids_padded whitespace_tokenizer length_ids 4 8 two_words 0 ["a"; "b"])
    as (row & Hrow & Hlen & _).
  - intros pieces. unfold length_ids. apply length_map.
  - reflexivity.
  - exists row. split; [exact Hrow|exact Hlen].
Defined.

(** A corpus whose second sentence has as many words as the limit allows no
    more. *)
Definition long_sentence : corpus :=
  Corpus [["a"]; ["b"; "c"; "d"; "e"]] [["a"]; ["b"; "c"; "d"; "e"]]
    [["X"]; ["X"; "X"; "X"; "X"]] [[(1, 0)]; [(1, 0); (2, 1); (3, 1); (4, 1)]] [1; 1].

Lemma training_examples_keeps_fields_beside_witness :
  zip (tokens (training_examples whitespace_tokenizer length_ids 4 8 long_sentence).2)
      (relations (training_examples whitespace_tokenizer length_ids 4 8 long_sentence).2)
  = filter (λ p, survives whitespace_tokenizer 4 8 p.1)
      (zip (tokens long_sentence) (relations long_sentence)).
Proof.
  destruct (training_examples_keeps_fields_beside whitespace_tokenizer length_ids 4 8
              long_sentence eq_refl eq_refl eq_refl) as (_ & _ & Hrel).
  exact Hrel.
Defined.

Example long_sentence_dropped :
  tokens (training_examples whitespace_tokenizer length_ids 4 8 long_sentence).2 = [["a"]].
Proof. reflexivity. Qed.

Lemma read_conllu_aligned_witness :
  aligned file_corpus ∧ word_count file_corpus = map length (tokens file_corpus).
Proof.
  apply (read_conllu_aligned 0 1 2 3 6 empty_corpus (closed_sentence ++ open_sentence)
           file_corpus).
  - repeat split; constructor.
  - vm_compute. reflexivity.
Defined.

Lemma read_conllu_sentence_count_witness :
  length (tokens file_corpus)
  = (length (tokens empty_corpus)
     + length (filter (λ line, line = newline) (closed_sentence ++ open_sentence)))%nat.
Proof.
  apply (read_conllu_sentence_count 0 1 2 3 6 empty_corpus
           (closed_sentence ++ open_sentence) file_corpus).
  vm_compute. reflexivity.
Defined.

(** A word row whose head is not a number. *)
Definition headless_row : string :=
  conllu_row ["1"; "Stop"; "stop"; "VERB"; "_"; "_"; "_"; "root"; "_"; "_"].

Lemma read_conllu_first_error_witness :
  read_conllu 0 1 2 3 6 empty_corpus (closed_sentence ++ headless_row :: open_sentence)
  = Err ValueError.
Proof.
  apply (read_conllu_first_error 0 1 2 3 6 empty_corpus closed_sentence open_sentence
           headless_row ValueError).
  - intros l Hl. unfold closed_sentence in Hl.
    repeat (apply elem_of_cons in Hl as [->|Hl]; [eexists; vm_compute; reflexivity|]).
    by apply elem_of_nil in Hl.
  - vm_compute. reflexivity.
Defined.

Lemma unlabeled_relations_lookup_witness :
  ∃ dict,
    unlabeled_relations file_corpus !! 0%nat = Some dict
    ∧ (∀ d h, dict !! d = Some h ↔ (d, h) ∈ [(1, 2); (2, 0)])
    ∧ size dict = 2%nat.
Proof.
  apply (unlabeled_relations_lookup file_corpus 0 [(1, 2); (2, 0)]).
  - reflexivity.
  - simpl. apply NoDup_cons. split; [|apply NoDup_singleton].
    rewrite list_elem_of_singleton. discriminate.
Defined.

(** A sentence with a punctuation mark. *)
Definition punctuated : corpus :=
  Corpus [["Dogs"; "bark"; "!"]] [["dog"; "bark"; "!"]] [["NOUN"; "VERB"; "PUNCT"]]
    [[(1, 2); (2, 0); (3, 2)]] [2].

(** Of the three relations only the one of the punctuation mark is kept. *)
Definition punctuated_edge_set : gset (gset Z) := {[ {[ 3; 2 ]} ]} ∪ ∅.

Lemma unordered_relations_of_punctuation_witness :
  {[ 3; 2 ]} ∈ punctuated_edge_set
  ↔ punctuation_edge ["NOUN"; "VERB"; "PUNCT"] [(1, 2); (2, 0); (3, 2)] {[ 3; 2 ]}.
Proof.
  destruct (unordered_relations_of_punctuation punctuated [punctuated_edge_set] 0
              punctuated_edge_set
              [(1, 2); (2, 0); (3, 2)] ["NOUN"; "VERB"; "PUNCT"]) as [Hiff _].
  - reflexivity.
  - reflexivity.
  - reflexivity.
  - reflexivity.
  - exact (Hiff {[ 3; 2 ]}).
Defined.

End Conll.

(** ** The distance probe *)

Module Probe.

Local Open Scope Q_scope.

Abbreviation vector := (list Q) (only parsing).
Abbreviation matrix := (list (list Q)) (only parsing).
Abbreviation tensor3 := (list (list (list Q))) (only parsing).

(** *** Tensor operations *)

Definition Qsum (v : vector) : Q := foldr Qplus 0 v.

Definition zeros (n : nat) : vector := replicate n 0.

Definition vadd (x y : vector) : vector := zip_with Qplus x y.
Definition vsub (x y : vector) : vector := zip_with Qminus x y.
Definition vscale (a : Q) (x : vector) : vector := map (Qmult a) x.

(** The width of a matrix given by rows. *)
Definition width (m : matrix) : nat :=
  match m with
  | row :: _ => length row
  | [] => 0%nat
  end.

(** One row times a matrix: the combination of the matrix rows with the
    entries of the row as coefficients. *)
Definition row_times (row : vector) (m : matrix) : vector :=
  foldr vadd (zeros (width m)) (zip_with vscale row m).

(** [a @ m] for two-dimensional [m]; the inner dimensions have to agree. *)
Definition matmul (a m : matrix) : result matrix :=
  if forallb (λ row, bool_decide (length row = length m)) a
     && forallb (λ row, bool_decide (length row = width m)) m
  then Ok (map (λ row, row_times row m) a)
  else Err InvalidArgumentError.

(** [t @ m] with [t] of rank three: the product is taken for every element
    of the batch. *)
Fixpoint batch_matmul (t : tensor3) (m : matrix) : result tensor3 :=
  match t with
  | [] => Ok []
  | a :: t' =>
      am ←ᵣ matmul a m;
      rest ←ᵣ batch_matmul t' m;
      Ok (am :: rest)
  end.

(** [tf.math.unsorted_segment_mean(data, segment_ids, num_segments)]: row [s]
    of the result is the mean of the rows of [data] whose id is [s], zero when
    there is none; rows with a negative id are dropped, an id that is not
    below [num_segments] is an error. *)
Definition segment_rows (data : matrix) (segment_ids : list Z) (s : Z) : matrix :=
  (filter (λ p, p.1 = s) (zip segment_ids data)).*2.

Definition segment_mean (data : matrix) (segment_ids : list Z) (s : Z) : vector :=
  let rows := segment_rows data segment_ids s in
  vscale (1 / inject_Z (Z.of_nat (length rows `max` 1)))
    (foldr vadd (zeros (width data)) rows).

Definition unsorted_segment_mean (data : matrix) (segment_ids : list Z)
    (num_segments : Z) : result matrix :=
  if bool_decide (0 ≤ num_segments)%Z
     && bool_decide (length segment_ids = length data)
     && forallb (λ s, bool_decide (s < num_segments)%Z) segment_ids
  then Ok (map (λ s, segment_mean data segment_ids (Z.of_nat s))
             (seq 0 (Z.to_nat num_segments)))
  else Err InvalidArgumentError.

(** [tf.map_fn] of the pooling over the three tensors of the batch, which have
    to agree in their first dimension. *)
Fixpoint pool_batch (embeddings : tensor3) (segments : list (list Z))
    (max_token_len : list Z) : result tensor3 :=
  match embeddings, segments, max_token_len with
  | [], [], [] => Ok []
  | x :: xs, seg :: segs, n :: ns =>
      pooled ←ᵣ unsorted_segment_mean x seg n;
      rest ←ᵣ pool_batch xs segs ns;
      Ok (pooled :: rest)
  | _, _, _ => Err InvalidArgumentError
  end.

(** [tf.reshape(e, [e.shape[0], max_token_len[0], e.shape[2]])]: the mapped
    results stack only when they have one shape, the one of [max_token_len[0]],
    and the reshape then changes nothing. *)
Definition reshape_words (pooled : tensor3) (max_token_len : list Z) : result tensor3 :=
  match max_token_len with
  | n0 :: _ =>
      if forallb (λ n, bool_decide (n = n0)) max_token_len then Ok pooled
      else Err InvalidArgumentError
  | [] => Err InvalidArgumentError
  end.

(** [tf.expand_dims(e, 1)] on one element of the batch: shape [1, seq, dim]. *)
Definition expand_dims_1 (e : matrix) : list matrix := [e].

(** [tf.transpose(., perm=(0, 2, 1, 3))] of it: shape [seq, 1, dim]. *)
Definition transpose_words (expanded : list matrix) : list matrix :=
  match expanded with
  | [e] => map (λ row, [row]) e
  | _ => []
  end.

(** The broadcast difference of a [1, seq, dim] and a [seq, 1, dim] tensor:
    entry [i][j] is row [j] of the first less row [i] of the second. *)
Definition broadcast_sub (x y : list matrix) : list matrix :=
  match x with
  | [x_rows] =>
      map (λ y_i, match y_i with
                  | [y_row] => map (λ x_row, vsub x_row y_row) x_rows
                  | _ => []
                  end) y
  | _ => []
  end.

Definition square (a : Q) : Q := a * a.

(** [tf.reduce_sum(tf.math.square(diffs), axis=-1)] *)
Definition sum_squares (diffs : list matrix) : matrix :=
  map (map (λ d, Qsum (map square d))) diffs.

Definition pairwise (e : matrix) : matrix :=
  let embeddings := expand_dims_1 e in
  let transposed_embeddings := transpose_words embeddings in
  sum_squares (broadcast_sub embeddings transposed_embeddings).

(** The squared distance that [pairwise] puts at an entry. *)
Definition sqdist (x y : vector) : Q := Qsum (map square (vsub x y)).

(** Entries of a matrix and of a rank-three tensor, zero outside the shape. *)
Definition entry (m : matrix) (i j : nat) : Q :=
  match m !! i with
  | Some row => default 0 (row !! j)
  | None => 0
  end.

Definition entry3 (t : tensor3) (b i j : nat) : Q :=
  match t !! b with
  | Some m => entry m i j
  | None => 0
  end.

(** *** The batch and the probe *)

(** An element of [args.train_languages] as the code may meet it: a language
    name, or an (index, name) pair as the loop header of [evaluate] unpacks. *)
Inductive lang_entry :=
  | LangName (name : string)
  | LangPair (lang_idx : Z) (name : string).

Global Instance lang_entry_eq_dec : EqDecision lang_entry.
Proof. solve_decision. Defined.

Global Instance lang_entry_countable : Countable lang_entry.
Proof.
  refine (inj_countable'
    (λ e, match e with
          | LangName n => inl n
          | LangPair i n => inr (i, n)
          end)
    (λ s, match s with
          | inl n => LangName n
          | inr (i, n) => LangPair i n
          end) _).
  by intros [].
Defined.

(** The batch interface the probe reads. *)
Record Batch := MkBatch {
  wordpieces : list (list Z);
  segments : list (list Z);
  max_token_len : list Z;
  token_len : list Z;
  target : tensor3;
  language : lang_entry
}.

(** The variables an optimizer step may name. *)
Inductive variable :=
  | Var_Distance_Probe
  | Var_Language_Map (lang : lang_entry).

Section DistanceProbe.
(** The frozen transformer, the gradient the tape computes for the loss of a
    batch with respect to a variable, the state of the Adam optimizer and its
    update of one variable, the batches of the evaluation data. *)
Variable bert_model : list (list Z) → tensor3.
Variable optimizer_state : Type.
Variable adam_update : optimizer_state → variable → matrix → matrix → optimizer_state * matrix.

Record probe := MkProbe {
  languages : list lang_entry;
  Distance_Probe : matrix;
  Language_Maps : gmap lang_entry matrix;
  optimizer : optimizer_state
}.

Variable tape_gradient : probe → Batch → variable → matrix.

Definition forward (p : probe) (batch : Batch) : result tensor3 :=
  let embeddings := bert_model (wordpieces batch) in
  pooled ←ᵣ pool_batch embeddings (segments batch) (max_token_len batch);
  words ←ᵣ reshape_words pooled (max_token_len batch);
  language_map ←ᵣ match Language_Maps p !! language batch with
                  | Some m => Ok m
                  | None => Err KeyError
                  end;
  mapped ←ᵣ batch_matmul words language_map;
  projected ←ᵣ batch_matmul mapped (Distance_Probe p);
  Ok (map pairwise projected).

(** [tf.reduce_sum(tf.abs(predicted - gold), axis=[1,2])
     / (tf.cast(token_lens, tf.float32) ** 2)], then [tf.reduce_mean]. *)
Definition abs_diff (predicted gold : tensor3) : tensor3 :=
  zip_with (zip_with (zip_with (λ x y, Qabs (x - y)))) predicted gold.

Definition reduce_sum_12 (t : tensor3) : vector :=
  map (λ m, Qsum (map Qsum m)) t.

Definition reduce_mean (v : vector) : Q :=
  Qsum v / inject_Z (Z.of_nat (length v)).

Definition _loss (predicted_distances gold_distances : tensor3) (token_lens : list Z) : Q :=
  let sentence_loss :=
    zip_with Qdiv (reduce_sum_12 (abs_diff predicted_distances gold_distances))
      (map (λ n, inject_Z n * inject_Z n) token_lens) in
  reduce_mean sentence_loss.

Definition evaluate_on_batch (p : probe) (batch : Batch) : result Q :=
  predicted_distances ←ᵣ forward p batch;
  Ok (_loss predicted_distances (target batch) (token_len batch)).

(** *** The training step *)

Definition read_variable (p : probe) (v : variable) : option matrix :=
  match v with
  | Var_Distance_Probe => Some (Distance_Probe p)
  | Var_Language_Map lang => Language_Maps p !! lang
  end.

Definition assign (p : probe) (v : variable) (value : matrix) (o : optimizer_state) : probe :=
  match v with
  | Var_Distance_Probe =>
      {| languages := languages p; Distance_Probe := value;
         Language_Maps := Language_Maps p; optimizer := o |}
  | Var_Language_Map lang =>
      {| languages := languages p; Distance_Probe := Distance_Probe p;
         Language_Maps := <[lang := value]> (Language_Maps p); optimizer := o |}
  end.

(** [self._optimizer.apply_gradients(zip(gradients, variables))]: the
    optimizer updates the variables it is handed, one after the other. *)
Definition apply_gradient (p : probe) (gv : matrix * variable) : probe :=
  match read_variable p gv.2 with
  | Some value =>
      let update := adam_update (optimizer p) gv.2 value gv.1 in
      assign p gv.2 update.2 update.1
  | None => p
  end.

Definition apply_gradients (grads_and_vars : list (matrix * variable)) (p : probe) : probe :=
  foldl apply_gradient p grads_and_vars.

(** [[self.Distance_Probe, self.Language_Maps[batch.language]]] *)
Definition train_variables (p : probe) (batch : Batch) : result (list variable) :=
  match Language_Maps p !! language batch with
  | Some _ => Ok [Var_Distance_Probe; Var_Language_Map (language batch)]
  | None => Err KeyError
  end.

(** An error that leaves a [tf.function] called inside another one: the outer
    function re-raises a [KeyError] of the inner one as a [StagingError]. *)
Definition staged {A} (r : result A) : result A :=
  match r with
  | Err KeyError => Err StagingError
  | _ => r
  end.

(** [train_on_batch] is a [tf.function] and calls the [tf.function]
    [forward]. *)
Definition train_on_batch (p : probe) (batch : Batch) : result (Q * probe) :=
  predicted_distances ←ᵣ staged (forward p batch);
  let loss := _loss predicted_distances (target batch) (token_len batch) in
  variables ←ᵣ train_variables p batch;
  let gradients := map (tape_gradient p batch) variables in
  Ok (loss, apply_gradients (zip gradients variables) p).

(** [train]: [args.epochs] passes over the training batches; [train_batches e]
    is what [dep_dataset.train.train_batches] returns in pass [e]. A count of
    epochs that is not positive gives an empty range. *)
Definition train_epoch (p : probe) (batches : list Batch) : result probe :=
  for_each (λ p batch, r ←ᵣ train_on_batch p batch; Ok r.2) p batches.

Definition train (p : probe) (train_batches : nat → nat → list Batch)
    (epochs : Z) (batch_size : nat) : result probe :=
  for_each (λ p epoch_idx, train_epoch p (train_batches epoch_idx batch_size))
    p (seq 0 (Z.to_nat epochs)).

(** *** Evaluation *)

(** What stands in the brackets of [all_losses[lang_idx]]. *)
Inductive py_index :=
  | IndexInt (z : Z)
  | IndexStr (s : string).

(** [for lang_idx, language in self.languages]: the element is unpacked into
    two; a pair gives its components, a string gives its characters when it
    has exactly two. *)
Definition unpack_entry (e : lang_entry) : result (py_index * string) :=
  match e with
  | LangPair lang_idx name => Ok (IndexInt lang_idx, name)
  | LangName (String a (String b EmptyString)) =>
      Ok (IndexStr (String a EmptyString), String b EmptyString)
  | LangName _ => Err ValueError
  end.

(** The position a numpy array of [n] entries gives to an index: an integer
    in range, counted from the end when negative; nothing else is an index. *)
Definition np_locate (n : nat) (idx : py_index) : result nat :=
  match idx with
  | IndexInt z =>
      if bool_decide (0 ≤ z < Z.of_nat n)%Z then Ok (Z.to_nat z)
      else if bool_decide (- Z.of_nat n ≤ z < 0)%Z then Ok (Z.to_nat (Z.of_nat n + z))
      else Err IndexError
  | IndexStr _ => Err IndexError
  end.

Arguments np_locate : simpl never.

(** [enumerate(l)] counted from [i]. *)
Fixpoint enumerate_from {A} (i : nat) (l : list A) : list (nat * A) :=
  match l with
  | [] => []
  | x :: l' => (i, x) :: enumerate_from (S i) l'
  end.

Record eval_state := EvalState {
  all_losses : list Q;
  batch_idx : nat
}.

(** The body of the loop over the batches of one language. *)
Definition accumulate (p : probe) (lang_idx : py_index) (st : eval_state)
    (item : nat * Batch) : result eval_state :=
  batch_loss ←ᵣ evaluate_on_batch p item.2;
  k ←ᵣ np_locate (length (all_losses st)) lang_idx;
  Ok {| all_losses := <[k := default 0 (all_losses st !! k) + batch_loss]> (all_losses st);
        batch_idx := item.1 |}.

(** The divisor of the per-language mean. *)
Definition divisor (last_batch_idx : nat) : Q :=
  inject_Z (Z.of_nat (last_batch_idx + 1)).

(** The body of the loop over the languages; [data] is
    [data.evaluate_batches]. *)
Definition evaluate_language (p : probe) (data : nat → string → list Batch)
    (batch_size : nat) (losses : list Q) (e : lang_entry) : result (list Q) :=
  unpacked ←ᵣ unpack_entry e;
  let lang_idx := unpacked.1 in
  let progressbar := data batch_size unpacked.2 in
  st ←ᵣ for_each (accumulate p lang_idx) (EvalState losses 0) (enumerate_from 0 progressbar);
  k ←ᵣ np_locate (length (all_losses st)) lang_idx;
  Ok (<[k := default 0 (all_losses st !! k) / divisor (batch_idx st)]> (all_losses st)).

Definition evaluate (p : probe) (data : nat → string → list Batch) (batch_size : nat)
    : result Q :=
  losses ←ᵣ for_each (evaluate_language p data batch_size)
              (zeros (length (languages p))) (languages p);
  Ok (reduce_mean losses).

(** The loss of a batch, zero standing for a failed forward pass. *)
Definition loss_of (p : probe) (batch : Batch) : Q :=
  match evaluate_on_batch p batch with
  | Ok l => l
  | Err _ => 0
  end.

(** The mean batch loss of one language as the loop computes it. *)
Definition language_mean (losses : list Q) : Q :=
  foldl Qplus 0 losses / divisor (length losses - 1).

(** The languages as [enumerate] would hand them to the loop header. *)
Definition enumerated (names : list string) : list lang_entry :=
  map (λ item, LangPair (Z.of_nat item.1) item.2) (enumerate_from 0 names).

(** The loss as the specification words it: per sentence the sum over all
    pairs of positions of the absolute difference, over the square of the
    sentence's word count; then the mean over the batch. [batch_size] and
    [seq_len] are the first and the two other dimensions of the tensors. *)
Definition spec_sentence_loss (predicted gold : tensor3) (token_lens : list Z)
    (seq_len : nat) (b : nat) : Q :=
  Qsum (map (λ i,
         Qsum (map (λ j, Qabs (entry3 predicted b i j - entry3 gold b i j))
                 (seq 0 seq_len)))
         (seq 0 seq_len))
  / (inject_Z (default 0%Z (token_lens !! b)) * inject_Z (default 0%Z (token_lens !! b))).

Definition spec_loss (predicted gold : tensor3) (token_lens : list Z)
    (batch_size seq_len : nat) : Q :=
  Qsum (map (spec_sentence_loss predicted gold token_lens seq_len) (seq 0 batch_size))
  / inject_Z (Z.of_nat batch_size).

(** A tensor of shape [batch_size, seq_len, seq_len]. *)
Definition has_shape (t : tensor3) (batch_size seq_len : nat) : Prop :=
  length t = batch_size
  ∧ Forall (λ m, length m = seq_len ∧ Forall (λ row, length row = seq_len) m) t.

Lemma has_shape_rows (t : tensor3) (batch_size seq_len : nat) (m : matrix) :
  has_shape t batch_size seq_len → m ∈ t →
  length m = seq_len ∧ ∀ row, row ∈ m → length row = seq_len.
Proof.
  intros [_ Hall] Hm. rewrite Forall_forall in Hall.
  destruct (Hall m Hm) as [Hlen Hrows]. split; [done|].
  by rewrite Forall_forall in Hrows.
Qed.

Lemma zip_with_indexed {A B C} (f : A → B → C) (da : A) (db : B)
    (l1 : list A) (l2 : list B) (n : nat) :
  length l1 = n → length l2 = n →
  zip_with f l1 l2
  = map (λ i, f (default da (l1 !! i)) (default db (l2 !! i))) (seq 0 n).
Proof.
  revert l2 n. induction l1 as [|a l1 IH]; intros [|b l2] n; simpl;
    intros <-; try discriminate; [done|].
  intros [= Hl]. simpl. f_equal.
  rewrite <- fmap_S_seq, <- list_fmap_compose. by apply IH.
Qed.

Lemma abs_diff_sums (predicted gold : tensor3) (batch_size seq_len : nat) :
  has_shape predicted batch_size seq_len → has_shape gold batch_size seq_len →
  reduce_sum_12 (abs_diff predicted gold)
  = map (λ b,
      Qsum (map (λ i,
        Qsum (map (λ j, Qabs (entry3 predicted b i j - entry3 gold b i j))
                (seq 0 seq_len)))
        (seq 0 seq_len)))
      (seq 0 batch_size).
Proof.
  intros Hps Hgs. assert (Hp := proj1 Hps). assert (Hg := proj1 Hgs).
  unfold reduce_sum_12, abs_diff.
  rewrite (zip_with_indexed _ [] [] predicted gold batch_size Hp Hg), map_map.
  apply map_ext_in. intros b [_ Hb]%in_seq. simpl in Hb.
  destruct (lookup_lt_is_Some_2 predicted b) as [m1 H1]; [lia|].
  destruct (lookup_lt_is_Some_2 gold b) as [m2 H2]; [lia|].
  unfold entry3. rewrite H1, H2. simpl.
  destruct (has_shape_rows _ _ _ m1 Hps) as [Hm1 Hr1]; [by eapply list_elem_of_lookup_2|].
  destruct (has_shape_rows _ _ _ m2 Hgs) as [Hm2 Hr2]; [by eapply list_elem_of_lookup_2|].
  rewrite (zip_with_indexed _ [] [] m1 m2 seq_len Hm1 Hm2), map_map.
  f_equal. apply map_ext_in. intros i [_ Hi]%in_seq. simpl in Hi.
  destruct (lookup_lt_is_Some_2 m1 i) as [r1 Hi1]; [lia|].
  destruct (lookup_lt_is_Some_2 m2 i) as [r2 Hi2]; [lia|].
  unfold entry. rewrite Hi1, Hi2. simpl.
  rewrite (zip_with_indexed _ 0 0 r1 r2 seq_len).
  - done.
  - apply Hr1. by eapply list_elem_of_lookup_2.
  - apply Hr2. by eapply list_elem_of_lookup_2.
Qed.

(** C2. On tensors of one shape, [_loss] is the mean over the sentences of
    the batch of the summed absolute differences of all pairs of positions
    over the square of the sentence's entry of [token_lens], the true word
    count, whatever the padded length. *)
Theorem loss_is_mean_of_normalised_l1 (predicted gold : tensor3) (token_lens : list Z)
    (batch_size seq_len : nat) :
  has_shape predicted batch_size seq_len →
  has_shape gold batch_size seq_len →
  length token_lens = batch_size →
  _loss predicted gold token_lens
  = spec_loss predicted gold token_lens batch_size seq_len.
Proof.
  intros Hp Hg Hl. unfold _loss, spec_loss, reduce_mean.
  rewrite (abs_diff_sums predicted gold batch_size seq_len Hp Hg).
  rewrite (zip_with_indexed Qdiv 0 0 _ _ batch_size)
    by (by rewrite length_map, ?length_seq).
  rewrite length_map, length_seq. f_equal. f_equal.
  apply map_ext_in. intros b [_ Hb]%in_seq. simpl in Hb.
  unfold spec_sentence_loss.
  rewrite !list_lookup_fmap, lookup_seq_lt by lia.
  destruct (lookup_lt_is_Some_2 token_lens b) as [n ->]; [lia|]. done.
Qed.

(** *** The pairwise distances *)

Lemma pairwise_unfold (e : matrix) :
  pairwise e = map (λ y_row, map (λ x_row, sqdist x_row y_row) e) e.
Proof.
  unfold pairwise, expand_dims_1, transpose_words, broadcast_sub, sum_squares.
  rewrite !map_map. apply map_ext. intros y_row. by rewrite map_map.
Qed.

Lemma sqdist_sym (x y : vector) : sqdist x y == sqdist y x.
Proof.
  unfold sqdist, vsub. revert y.
  induction x as [|a x IH]; intros [|b y]; simpl; try reflexivity.
  rewrite IH. unfold square. ring.
Qed.

Lemma sqdist_self (x : vector) : sqdist x x == 0.
Proof.
  unfold sqdist, vsub. induction x as [|a x IH]; simpl; [reflexivity|].
  rewrite IH. unfold square. ring.
Qed.

Lemma entry_pairwise (e : matrix) (i j : nat) :
  entry (pairwise e) i j
  = match e !! i, e !! j with
    | Some y_row, Some x_row => sqdist x_row y_row
    | _, _ => 0
    end.
Proof.
  unfold entry. rewrite pairwise_unfold, list_lookup_fmap.
  destruct (e !! i) as [y_row|]; simpl; [|done].
  rewrite list_lookup_fmap. by destruct (e !! j).
Qed.

Lemma pairwise_square_shape (e : matrix) (row : vector) :
  length (pairwise e) = length e
  ∧ (row ∈ pairwise e → length row = length e).
Proof.
  rewrite pairwise_unfold, length_map. split; [done|].
  intros (y & -> & _)%list_elem_of_fmap. by rewrite length_map.
Qed.

Lemma pairwise_batch_shape (projected : tensor3) (m : matrix) (row : vector) :
  m ∈ map pairwise projected → row ∈ m → length row = length m.
Proof.
  intros (e & -> & _)%list_elem_of_fmap Hrow.
  destruct (pairwise_square_shape e row) as [-> Hlen]. auto.
Qed.

Lemma pairwise_batch_symmetric (projected : tensor3) (b i j : nat) :
  entry3 (map pairwise projected) b i j == entry3 (map pairwise projected) b j i
  ∧ entry3 (map pairwise projected) b i i == 0.
Proof.
  unfold entry3. rewrite list_lookup_fmap.
  destruct (projected !! b) as [e|]; simpl; [|split; reflexivity].
  rewrite !entry_pairwise.
  destruct (e !! i) as [x|], (e !! j) as [y|]; split;
    try reflexivity; try apply sqdist_sym; apply sqdist_self.
Qed.

(** C8. Whatever the batch, the tensor [forward] returns holds one square
    matrix per sentence, and each of them is symmetric with a zero diagonal
    (in exact arithmetic); identical word embeddings are a special case. *)
Theorem forward_symmetric (p : probe) (batch : Batch) (distances : tensor3) :
  forward p batch = Ok distances →
  (∀ m row, m ∈ distances → row ∈ m → length row = length m)
  ∧ ∀ b i j,
      entry3 distances b i j == entry3 distances b j i
      ∧ entry3 distances b i i == 0.
Proof.
  unfold forward. intros Hf.
  repeat (match type of Hf with
          | rbind ?r _ = _ => destruct r; simpl in Hf; [|discriminate Hf]
          end).
  injection Hf as <-. split.
  - apply pairwise_batch_shape.
  - apply pairwise_batch_symmetric.
Qed.

(** *** The frame of the training step *)

Lemma apply_gradient_other_map (p : probe) (gv : matrix * variable) (lang : lang_entry) :
  gv.2 ≠ Var_Language_Map lang →
  Language_Maps (apply_gradient p gv) !! lang = Language_Maps p !! lang.
Proof.
  intros Hne. unfold apply_gradient.
  destruct (read_variable p gv.2) as [value|]; [|done].
  destruct gv.2 as [|lang'] eqn:Hv; simpl; [done|].
  apply lookup_insert_ne. congruence.
Qed.

Lemma apply_gradients_other_map (gvs : list (matrix * variable)) (p : probe)
    (lang : lang_entry) :
  Forall (λ gv, gv.2 ≠ Var_Language_Map lang) gvs →
  Language_Maps (apply_gradients gvs p) !! lang = Language_Maps p !! lang.
Proof.
  unfold apply_gradients. revert p.
  induction gvs as [|gv gvs IH]; intros p Hall; [done|].
  apply Forall_cons in Hall as [Hgv Hall]. simpl.
  rewrite IH by done. by apply apply_gradient_other_map.
Qed.

Lemma apply_gradients_languages (gvs : list (matrix * variable)) (p : probe) :
  languages (apply_gradients gvs p) = languages p.
Proof.
  unfold apply_gradients. revert p.
  induction gvs as [|gv gvs IH]; intros p; [done|]. simpl. rewrite IH.
  unfold apply_gradient. destruct (read_variable p gv.2); [|done].
  by destruct gv.2.
Qed.

(** C3. A training step on a batch of language [L] hands the optimizer the
    gradients of exactly two variables, the shared projection and the map of
    [L], and leaves the map of every other language as it was. *)
Theorem train_on_batch_frame (p : probe) (batch : Batch) (loss : Q) (p' : probe) :
  train_on_batch p batch = Ok (loss, p') →
  train_variables p batch = Ok [Var_Distance_Probe; Var_Language_Map (language batch)]
  ∧ p' = apply_gradients
           [(tape_gradient p batch Var_Distance_Probe, Var_Distance_Probe);
            (tape_gradient p batch (Var_Language_Map (language batch)),
             Var_Language_Map (language batch))] p
  ∧ ∀ lang, lang ≠ language batch →
      Language_Maps p' !! lang = Language_Maps p !! lang.
Proof.
  unfold train_on_batch. destruct (forward p batch) as [d|e]; simpl; [|by destruct e].
  unfold train_variables. destruct (Language_Maps p !! language batch); simpl; [|done].
  intros [= _ <-]. split_and!; [done|done|].
  intros lang Hne.
  apply (apply_gradients_other_map
           [(tape_gradient p batch Var_Distance_Probe, Var_Distance_Probe);
            (tape_gradient p batch (Var_Language_Map (language batch)),
             Var_Language_Map (language batch))]).
  repeat constructor; simpl; congruence.
Qed.

(** The loss a training step reports is the one [evaluate_on_batch] computes
    on the same parameters: both go through [forward] and [_loss]. *)
Lemma train_loss_is_evaluate_loss (p : probe) (batch : Batch) (loss : Q) (p' : probe) :
  train_on_batch p batch = Ok (loss, p') → evaluate_on_batch p batch = Ok loss.
Proof.
  unfold train_on_batch, evaluate_on_batch.
  destruct (forward p batch) as [d|e]; simpl; [|by destruct e].
  destruct (train_variables p batch); simpl; [|done].
  by intros [= <- _].
Qed.

(** *** Evaluation over language names *)

(** C6, where the code departs from it. When the first element of
    [self.languages] is a language name, the loop header of [evaluate] has no
    index to unpack: a name of two characters gives a character as index, on
    which the accumulator raises, any other name fails to unpack. No scalar
    is returned. *)
Theorem evaluate_names_raises (rest : list lang_entry) (d : matrix)
    (maps : gmap lang_entry matrix) (o : optimizer_state)
    (data : nat → string → list Batch) (batch_size : nat) (name : string) :
  ∃ e, evaluate (MkProbe (LangName name :: rest) d maps o) data batch_size = Err e.
Proof.
  unfold evaluate. simpl.
  set (p := MkProbe _ _ _ _).
  assert (Hlang : ∃ e, evaluate_language p data batch_size
                         (0 :: zeros (length rest)) (LangName name) = Err e).
  { unfold evaluate_language.
    destruct name as [|a [|b [|c name]]]; simpl; eauto.
    destruct (for_each _ _ _) as [st|e]; simpl; eauto. }
  destruct Hlang as [e He]. exists e.
  change (zeros (S (length rest))) with (0 :: zeros (length rest)).
  by rewrite He.
Qed.

(** C10, where the code departs from it. With a language name first in
    [self.languages] and evaluation data without a single batch, the divisor
    is 1 and nothing is divided by zero, but no accumulator slot is reached
    and no mean is returned: a name of two characters raises [IndexError] at
    [all_losses[lang_idx]], any other name [ValueError] at the unpacking. *)
Theorem evaluate_names_without_batches (rest : list lang_entry) (d : matrix)
    (maps : gmap lang_entry matrix) (o : optimizer_state) (batch_size : nat)
    (name : string) :
  divisor 0 = 1
  ∧ evaluate (MkProbe (LangName name :: rest) d maps o) (λ _ _, []) batch_size
    = Err (if bool_decide (String.length name = 2%nat) then IndexError else ValueError).
Proof.
  split; [done|]. unfold evaluate. simpl.
  change (zeros (S (length rest))) with (0 :: zeros (length rest)).
  destruct name as [|a [|b [|c name]]]; reflexivity.
Qed.

(** *** Evaluation over enumerated languages *)

Lemma np_locate_nat (n k : nat) :
  (k < n)%nat → np_locate n (IndexInt (Z.of_nat k)) = Ok k.
Proof.
  intros Hk. unfold np_locate.
  rewrite bool_decide_eq_true_2 by lia. by rewrite Nat2Z.id.
Qed.

Lemma divisor_nonzero (last_batch_idx : nat) : ¬ divisor last_batch_idx == 0.
Proof.
  unfold divisor, Qeq. simpl. lia.
Qed.

Lemma accumulate_fold (p : probe) (k : nat) (batches : list Batch) (i0 : nat)
    (st : eval_state) :
  (k < length (all_losses st))%nat →
  (∀ batch, batch ∈ batches → ∃ l, evaluate_on_batch p batch = Ok l) →
  for_each (accumulate p (IndexInt (Z.of_nat k))) st (enumerate_from i0 batches)
  = Ok {| all_losses :=
            <[k := foldl Qplus (default 0 (all_losses st !! k)) (map (loss_of p) batches)]>
              (all_losses st);
          batch_idx := match batches with
                       | [] => batch_idx st
                       | _ :: _ => (i0 + length batches - 1)%nat
                       end |}.
Proof.
  revert i0 st. induction batches as [|batch batches IH]; intros i0 st Hk Hok; simpl.
  - destruct (lookup_lt_is_Some_2 (all_losses st) k Hk) as [x Hx].
    rewrite Hx. simpl. rewrite list_insert_id by done. by destruct st.
  - destruct (Hok batch) as [l Hl]; [by left|].
    unfold accumulate at 1. simpl. rewrite Hl. simpl.
    rewrite np_locate_nat by done. simpl.
    rewrite IH.
    + simpl. rewrite list_lookup_insert_eq by done. simpl.
      rewrite list_insert_insert_eq.
      unfold loss_of at 2. rewrite Hl.
      f_equal. f_equal. destruct batches; simpl; lia.
    + simpl. by rewrite length_insert.
    + intros b Hb. apply Hok. by right.
Qed.

Lemma evaluate_language_enumerated (p : probe) (data : nat → string → list Batch)
    (batch_size : nat) (done_means later : list Q) (name : string) :
  (∀ batch, batch ∈ data batch_size name → ∃ l, evaluate_on_batch p batch = Ok l) →
  evaluate_language p data batch_size (done_means ++ 0 :: later)
    (LangPair (Z.of_nat (length done_means)) name)
  = Ok (done_means
        ++ language_mean (map (loss_of p) (data batch_size name)) :: later).
Proof.
  intros Hok. unfold evaluate_language. simpl.
  set (k := length done_means).
  assert (Hk : (k < length (done_means ++ 0%Q :: later))%nat).
  { rewrite length_app. simpl. lia. }
  rewrite accumulate_fold by done. simpl.
  rewrite length_insert, np_locate_nat by done. simpl.
  rewrite list_lookup_insert_eq by done. simpl.
  rewrite list_insert_insert_eq.
  assert (Hslot : (done_means ++ 0 :: later) !! k = Some 0).
  { subst k. by rewrite list_lookup_middle. }
  rewrite Hslot. simpl.
  assert (Hins : ∀ x, <[k := x]> (done_means ++ 0 :: later) = done_means ++ x :: later).
  { intros x. subst k. rewrite insert_app_r_alt by lia.
    by rewrite Nat.sub_diag. }
  rewrite Hins. do 2 f_equal. unfold language_mean. f_equal.
  rewrite length_map. destruct (data batch_size name); simpl; [done|].
  first [done | f_equal; lia].
Qed.

Lemma enumerate_from_length {A} (i : nat) (l : list A) :
  length (enumerate_from i l) = length l.
Proof. revert i. induction l as [|x l IH]; intros i; simpl; auto. Qed.

Lemma evaluate_languages_fold (p : probe) (data : nat → string → list Batch)
    (batch_size : nat) (names : list string) (done_means : list Q) :
  (∀ name batch, name ∈ names → batch ∈ data batch_size name →
     ∃ l, evaluate_on_batch p batch = Ok l) →
  for_each (evaluate_language p data batch_size)
    (done_means ++ zeros (length names))
    (map (λ item, LangPair (Z.of_nat item.1) item.2)
       (enumerate_from (length done_means) names))
  = Ok (done_means
        ++ map (λ name, language_mean (map (loss_of p) (data batch_size name))) names).
Proof.
  revert done_means. induction names as [|name names IH]; intros done_means Hok; simpl.
  - done.
  - change (zeros (S (length names))) with (0 :: zeros (length names)).
    rewrite evaluate_language_enumerated by (intros b Hb; eapply Hok; [by left|done]).
    simpl.
    set (m := language_mean _).
    replace (done_means ++ m :: zeros (length names))
      with ((done_means ++ [m]) ++ zeros (length names)) by (by rewrite <- app_assoc).
    replace (S (length done_means)) with (length (done_means ++ [m]))
      by (rewrite length_app; simpl; lia).
    rewrite IH by (intros n b Hn Hb; eapply Hok; [by right|done]).
    by rewrite <- app_assoc.
Qed.

(** On languages handed over with their positions, as [enumerate] would,
    [evaluate] returns the mean of the per-language means. *)
Lemma evaluate_enumerated (p : probe) (data : nat → string → list Batch)
    (batch_size : nat) (names : list string) :
  languages p = enumerated names →
  (∀ name batch, name ∈ names → batch ∈ data batch_size name →
     ∃ l, evaluate_on_batch p batch = Ok l) →
  evaluate p data batch_size
  = Ok (reduce_mean
          (map (λ name, language_mean (map (loss_of p) (data batch_size name))) names)).
Proof.
  intros Hl Hok. unfold evaluate. rewrite Hl. unfold enumerated.
  rewrite length_map, enumerate_from_length.
  assert (Hfold := evaluate_languages_fold p data batch_size names [] Hok).
  simpl in Hfold. by rewrite Hfold.
Qed.

(** The divisor [batch_idx + 1] is never zero. With the languages handed
    over with their positions, a language without evaluation batches keeps
    its accumulator slot at 0 (divided by 1), and this 0 is its term in the
    mean that [evaluate] returns. *)
Lemma evaluate_without_batches (p : probe) (data : nat → string → list Batch)
    (batch_size : nat) (names : list string) :
  languages p = enumerated names →
  (∀ name batch, name ∈ names → batch ∈ data batch_size name →
     ∃ l, evaluate_on_batch p batch = Ok l) →
  (∀ last_batch_idx, ¬ divisor last_batch_idx == 0)
  ∧ divisor 0 = 1
  ∧ ∃ means,
      evaluate p data batch_size = Ok (reduce_mean means)
      ∧ length means = length names
      ∧ ∀ k name, names !! k = Some name → data batch_size name = [] →
          means !! k = Some 0.
Proof.
  intros Hl Hok. split; [apply divisor_nonzero|]. split; [done|].
  eexists. split; [by apply evaluate_enumerated|].
  split; [by rewrite length_map|].
  intros k name Hk Hnone. rewrite list_lookup_fmap, Hk. simpl.
  by rewrite Hnone.
Qed.

(** *** The shape of the distances *)

Lemma scaled_rows_width (w : nat) (row : vector) (m : matrix) :
  Forall (λ r, length r = w) m →
  Forall (λ r, length r = w) (zip_with vscale row m).
Proof.
  intros Hw. revert row.
  induction Hw as [|r m' Hr _ IH]; intros [|a row]; simpl; constructor.
  - unfold vscale. by rewrite length_map.
  - apply IH.
Qed.

Lemma row_times_length (row : vector) (m : matrix) :
  Forall (λ r, length r = width m) m → length (row_times row m) = width m.
Proof.
  intros Hm. unfold row_times.
  assert (Hall := scaled_rows_width (width m) row m Hm).
  induction Hall as [|r rs Hr _ IH]; simpl.
  - apply length_replicate.
  - unfold vadd at 1. rewrite length_zip_with, Hr, IH. lia.
Qed.

Lemma forallb_decide {A} (P : A → Prop) `{∀ x, Decision (P x)} (l : list A) :
  forallb (λ x, bool_decide (P x)) l = true → Forall P l.
Proof.
  induction l as [|x l IH]; simpl; [constructor|].
  intros [Hx Hl]%andb_prop. constructor; [by apply bool_decide_eq_true in Hx|auto].
Qed.

Lemma matmul_shape (a m product : matrix) :
  matmul a m = Ok product →
  length product = length a
  ∧ Forall (λ row, length row = length m) a
  ∧ Forall (λ row, length row = width m) product.
Proof.
  unfold matmul. destruct (forallb _ a) eqn:Ha; simpl; [|done].
  destruct (forallb _ m) eqn:Hm; simpl; [|done].
  intros [= <-]. rewrite length_map.
  apply forallb_decide in Ha. apply forallb_decide in Hm.
  split_and!; [done|done|].
  apply Forall_forall. intros r (row & -> & _)%list_elem_of_fmap.
  by apply row_times_length.
Qed.

Lemma batch_matmul_shape (t : tensor3) (m : matrix) (t' : tensor3) :
  batch_matmul t m = Ok t' →
  Forall2 (λ a product,
    length product = length a
    ∧ Forall (λ row, length row = length m) a
    ∧ Forall (λ row, length row = width m) product) t t'.
Proof.
  revert t'. induction t as [|a t IH]; intros t'; simpl.
  - intros [= <-]. constructor.
  - destruct (matmul a m) as [am|e] eqn:Ham; simpl; [|done].
    destruct (batch_matmul t m) as [rest|e]; simpl; [|done].
    intros [= <-]. constructor; [by apply matmul_shape|by apply IH].
Qed.

Lemma unsorted_segment_mean_length (data : matrix) (ids : list Z) (n : Z)
    (pooled : matrix) :
  unsorted_segment_mean data ids n = Ok pooled → length pooled = Z.to_nat n.
Proof.
  unfold unsorted_segment_mean. destruct (_ && _); [|done].
  intros [= <-]. by rewrite length_map, length_seq.
Qed.

Lemma pool_batch_shape (embeddings : tensor3) (segs : list (list Z)) (lens : list Z)
    (pooled : tensor3) :
  pool_batch embeddings segs lens = Ok pooled →
  Forall2 (λ words n, length words = Z.to_nat n) pooled lens.
Proof.
  revert segs lens pooled.
  induction embeddings as [|x xs IH]; intros [|seg segs] [|n ns] pooled; simpl;
    try done.
  - intros [= <-]. constructor.
  - destruct (unsorted_segment_mean x seg n) as [w|e] eqn:Hw; simpl; [|done].
    destruct (pool_batch xs segs ns) as [rest|e] eqn:Hrest; simpl; [|done].
    intros [= <-]. constructor; [by eapply unsorted_segment_mean_length|by eapply IH].
Qed.

Lemma reshape_words_same (pooled : tensor3) (lens : list Z) (words : tensor3) :
  reshape_words pooled lens = Ok words →
  words = pooled ∧ ∃ n0, head lens = Some n0 ∧ Forall (λ n, n = n0) lens.
Proof.
  unfold reshape_words. destruct lens as [|n0 lens]; [done|].
  destruct (forallb _ (n0 :: lens)) eqn:Hall; [|done].
  intros [= <-]. split; [done|]. exists n0. split; [done|].
  by apply forallb_decide in Hall.
Qed.

(** What a successful [forward] went through. *)
Lemma forward_inv (p : probe) (batch : Batch) (distances : tensor3) :
  forward p batch = Ok distances →
  ∃ pooled language_map mapped projected,
    pool_batch (bert_model (wordpieces batch)) (segments batch) (max_token_len batch)
      = Ok pooled
    ∧ reshape_words pooled (max_token_len batch) = Ok pooled
    ∧ Language_Maps p !! language batch = Some language_map
    ∧ batch_matmul pooled language_map = Ok mapped
    ∧ batch_matmul mapped (Distance_Probe p) = Ok projected
    ∧ distances = map pairwise projected.
Proof.
  unfold forward.
  destruct (pool_batch _ _ _) as [pooled|e] eqn:Hpool; simpl; [|done].
  destruct (reshape_words _ _) as [words|e] eqn:Hre; simpl; [|done].
  destruct (reshape_words_same _ _ _ Hre) as [-> _].
  destruct (Language_Maps p !! language batch) as [lm|] eqn:Hlm; simpl; [|done].
  destruct (batch_matmul pooled lm) as [mapped|e] eqn:Hmap; simpl; [|done].
  destruct (batch_matmul mapped _) as [projected|e] eqn:Hproj; simpl; [|done].
  intros [= <-]. by exists pooled, lm, mapped, projected.
Qed.

(** X12. The tensor [forward] returns has the shape [batch, words, words]:
    one matrix per sentence of the batch, each with as many rows and columns
    as [max_token_len[0]], which all entries of [max_token_len] equal. *)
Theorem forward_shape (p : probe) (batch : Batch) (distances : tensor3) :
  forward p batch = Ok distances →
  ∃ n0,
    head (max_token_len batch) = Some n0
    ∧ Forall (λ n, n = n0) (max_token_len batch)
    ∧ length distances = length (max_token_len batch)
    ∧ ∀ m, m ∈ distances →
        length m = Z.to_nat n0 ∧ ∀ row, row ∈ m → length row = Z.to_nat n0.
Proof.
  intros (pooled & lm & mapped & projected & Hpool & Hre & _ & Hmap & Hproj & ->)%forward_inv.
  destruct (reshape_words_same _ _ _ Hre) as [_ (n0 & Hhead & Hall)].
  exists n0. split; [done|]. split; [done|].
  apply pool_batch_shape in Hpool.
  apply batch_matmul_shape in Hmap. apply batch_matmul_shape in Hproj.
  assert (Hlen : Forall2 (λ a n, length a = Z.to_nat n) projected (max_token_len batch)).
  { apply Forall2_same_length_lookup_2.
    - apply Forall2_length in Hpool, Hmap, Hproj. congruence.
    - intros i a n Ha Hn.
      destruct (Forall2_lookup_r _ _ _ _ _ Hproj Ha) as (a1 & Ha1 & -> & _).
      destruct (Forall2_lookup_r _ _ _ _ _ Hmap Ha1) as (a0 & Ha0 & -> & _).
      destruct (Forall2_lookup_l _ _ _ _ _ Hpool Ha0) as (n' & Hn' & ->).
      congruence. }
  split.
  - rewrite length_map. by eapply Forall2_length.
  - intros m (e & -> & He)%list_elem_of_fmap.
    assert (length e = Z.to_nat n0) as <-.
    { apply list_elem_of_lookup_1 in He as [i Hi].
      destruct (Forall2_lookup_l _ _ _ _ _ Hlen Hi) as (n & Hn & ->).
      rewrite Forall_forall in Hall.
      by rewrite (Hall n (list_elem_of_lookup_2 _ _ _ Hn)). }
    split.
    + by destruct (pairwise_square_shape e []) as [-> _].
    + intros row Hrow. by destruct (pairwise_square_shape e row) as [_ ->].
Qed.

Lemma Qsum_nonneg (v : vector) : Forall (λ x, 0 <= x) v → 0 <= Qsum v.
Proof.
  induction 1 as [|x v Hx _ IH]; simpl; [apply Qle_refl|].
  replace 0 with (0 + 0) by done. by apply Qplus_le_compat.
Qed.

Lemma sqdist_nonneg (x y : vector) : 0 <= sqdist x y.
Proof.
  unfold sqdist. apply Qsum_nonneg, Forall_forall.
  intros a (d & -> & _)%list_elem_of_fmap. unfold square.
  destruct d as [n q]. unfold Qle. simpl. nia.
Qed.

(** X13. No entry of the tensor [forward] returns is negative. *)
Theorem forward_nonneg (p : probe) (batch : Batch) (distances : tensor3) (b i j : nat) :
  forward p batch = Ok distances → 0 <= entry3 distances b i j.
Proof.
  intros (_ & _ & _ & projected & _ & _ & _ & _ & _ & ->)%forward_inv.
  unfold entry3. rewrite list_lookup_fmap.
  destruct (projected !! b) as [e|]; simpl; [|apply Qle_refl].
  rewrite entry_pairwise.
  destruct (e !! i), (e !! j); try apply Qle_refl. apply sqdist_nonneg.
Qed.

(** X14. [forward] multiplies the word vectors by the language map and then
    by [Distance_Probe] as it stands, not transposed: on a batch with at
    least one word it returns only if [Distance_Probe] has as many rows as
    the language map has columns, and the language map as many rows as the
    pooled vectors have entries. *)
Theorem forward_needs_matching_shapes (p : probe) (batch : Batch) (distances : tensor3) :
  forward p batch = Ok distances →
  (∃ m, m ∈ distances ∧ m ≠ []) →
  ∃ language_map,
    Language_Maps p !! language batch = Some language_map
    ∧ length (Distance_Probe p) = width language_map.
Proof.
  intros (pooled & lm & mapped & projected & _ & _ & Hlm & Hmap & Hproj & ->)%forward_inv.
  intros (m & (e & -> & He)%list_elem_of_fmap & Hne).
  exists lm. split; [done|].
  apply batch_matmul_shape in Hmap. apply batch_matmul_shape in Hproj.
  apply list_elem_of_lookup_1 in He as [i Hi].
  destruct (Forall2_lookup_r _ _ _ _ _ Hproj Hi) as (a & Ha & Hlen & Hrows & _).
  destruct (Forall2_lookup_r _ _ _ _ _ Hmap Ha) as (w & Hw & _ & _ & Hwidth).
  destruct a as [|row a].
  - destruct e; [|done]. exfalso. apply Hne. by rewrite pairwise_unfold.
  - apply Forall_cons in Hrows as [Hrow _]. apply Forall_cons in Hwidth as [Hw1 _].
    congruence.
Qed.

(** *** A language the probe does not know *)

(** X15. A batch whose language has no entry in [Language_Maps] makes
    [forward], [evaluate_on_batch] and [train_on_batch] raise: no loss is
    returned and no parameter is updated. When the pooling went through, the
    error of [forward] and of [evaluate_on_batch] is the [KeyError] of the
    dictionary, which [train_on_batch], a [tf.function] around the
    [tf.function] [forward], raises as a [StagingError]. *)
Theorem unknown_language_raises (p : probe) (batch : Batch) :
  Language_Maps p !! language batch = None →
  (∃ e, forward p batch = Err e ∧ evaluate_on_batch p batch = Err e)
  ∧ (∃ e, train_on_batch p batch = Err e)
  ∧ ∀ pooled,
      pool_batch (bert_model (wordpieces batch)) (segments batch) (max_token_len batch)
        = Ok pooled →
      reshape_words pooled (max_token_len batch) = Ok pooled →
      forward p batch = Err KeyError
      ∧ evaluate_on_batch p batch = Err KeyError
      ∧ train_on_batch p batch = Err StagingError.
Proof.
  intros Hnone.
  assert (Hf : ∃ e, forward p batch = Err e
                 ∧ ∀ pooled,
                     pool_batch (bert_model (wordpieces batch)) (segments batch)
                       (max_token_len batch) = Ok pooled →
                     reshape_words pooled (max_token_len batch) = Ok pooled →
                     e = KeyError).
  { unfold forward.
    destruct (pool_batch _ _ _) as [pooled|e]; simpl; [|by exists e].
    destruct (reshape_words _ _) as [words|e] eqn:Hre; simpl.
    - rewrite Hnone. simpl. exists KeyError. by split.
    - exists e. split; [done|]. intros pooled' [= <-]. congruence. }
  destruct Hf as (e & Hf & He).
  unfold evaluate_on_batch, train_on_batch. rewrite Hf. split_and!.
  - by exists e.
  - destruct e; simpl; eauto.
  - intros pooled Hpool Hre. by rewrite (He pooled Hpool Hre).
Qed.

(** *** The whole of [train] *)

Lemma apply_gradient_dom (p : probe) (gv : matrix * variable) :
  dom (Language_Maps (apply_gradient p gv)) = dom (Language_Maps p).
Proof.
  unfold apply_gradient. destruct gv as [g [|lang]]; simpl; [done|].
  destruct (Language_Maps p !! lang) as [value|] eqn:Hl; [|done]. simpl.
  apply dom_insert_lookup_L. by rewrite Hl.
Qed.

Lemma apply_gradients_dom (gvs : list (matrix * variable)) (p : probe) :
  dom (Language_Maps (apply_gradients gvs p)) = dom (Language_Maps p).
Proof.
  unfold apply_gradients. revert p.
  induction gvs as [|gv gvs IH]; intros p; [done|]. simpl.
  by rewrite IH, apply_gradient_dom.
Qed.

Lemma train_on_batch_inv (p : probe) (batch : Batch) (loss : Q) (p' : probe) :
  train_on_batch p batch = Ok (loss, p') →
  ∃ gvs,
    p' = apply_gradients gvs p
    ∧ Forall (λ gv, gv.2 = Var_Distance_Probe ∨ gv.2 = Var_Language_Map (language batch)) gvs.
Proof.
  unfold train_on_batch. destruct (forward p batch) as [d|e]; simpl; [|by destruct e].
  unfold train_variables. destruct (Language_Maps p !! language batch); simpl; [|done].
  intros [= _ <-].
  exists [(tape_gradient p batch Var_Distance_Probe, Var_Distance_Probe);
          (tape_gradient p batch (Var_Language_Map (language batch)),
           Var_Language_Map (language batch))].
  split; [reflexivity|].
  constructor; [by left|]. constructor; [by right|]. constructor.
Qed.

Lemma train_on_batch_keeps (p : probe) (batch : Batch) (loss : Q) (p' : probe) :
  train_on_batch p batch = Ok (loss, p') →
  dom (Language_Maps p') = dom (Language_Maps p)
  ∧ languages p' = languages p
  ∧ ∀ lang, lang ≠ language batch →
      Language_Maps p' !! lang = Language_Maps p !! lang.
Proof.
  intros (gvs & -> & Hgvs)%train_on_batch_inv.
  split; [apply apply_gradients_dom|]. split; [apply apply_gradients_languages|].
  intros lang Hne. apply apply_gradients_other_map.
  eapply Forall_impl; [exact Hgvs|]. simpl. intros gv [->| ->]; congruence.
Qed.

(** X16. Through the whole of [train], a language that tags none of the
    training batches keeps the map it started with. *)
Theorem train_frame (p : probe) (train_batches : nat → nat → list Batch)
    (epochs : Z) (batch_size : nat) (p' : probe) (lang : lang_entry) :
  train p train_batches epochs batch_size = Ok p' →
  (∀ epoch_idx batch, (epoch_idx < Z.to_nat epochs)%nat →
     batch ∈ train_batches epoch_idx batch_size → language batch ≠ lang) →
  Language_Maps p' !! lang = Language_Maps p !! lang.
Proof.
  intros Htrain Hother. unfold train in Htrain.
  apply (for_each_preserves _
           (λ q, Language_Maps q !! lang = Language_Maps p !! lang) _ _ _) in Htrain;
    [done| |done].
  intros q epoch_idx q' [_ Hlt]%elem_of_seq Hq Hepoch. unfold train_epoch in Hepoch.
  apply (for_each_preserves _
           (λ q, Language_Maps q !! lang = Language_Maps p !! lang) _ _ _) in Hepoch;
    [done| |done].
  intros q1 batch q2 Hin Hq1 Hstep.
  destruct (train_on_batch q1 batch) as [[loss q3]|e] eqn:Hb; simpl in Hstep; [|done].
  injection Hstep as <-.
  apply train_on_batch_keeps in Hb as (_ & _ & Hframe).
  rewrite Hframe; [done|]. intros Heq. eapply Hother; [|done|done]. lia.
Qed.

(** X17. [train] never adds or removes a language: after any number of
    epochs [Language_Maps] has the keys it had and [languages] is unchanged;
    with no epoch to run (a count that is not positive) the probe comes back
    as it was. *)
Theorem train_keeps_languages (p : probe) (train_batches : nat → nat → list Batch)
    (epochs : Z) (batch_size : nat) :
  ((epochs ≤ 0)%Z → train p train_batches epochs batch_size = Ok p)
  ∧ ∀ p', train p train_batches epochs batch_size = Ok p' →
      dom (Language_Maps p') = dom (Language_Maps p)
      ∧ languages p' = languages p.
Proof.
  split.
  - intros Hle. unfold train. by replace (Z.to_nat epochs) with 0%nat by lia.
  - intros p' Htrain. unfold train in Htrain.
    apply (for_each_preserves _
             (λ q, dom (Language_Maps q) = dom (Language_Maps p)
                   ∧ languages q = languages p) _ _ _) in Htrain; [done| |done].
    intros q epoch_idx q' _ Hq Hepoch. unfold train_epoch in Hepoch.
    apply (for_each_preserves _
             (λ q, dom (Language_Maps q) = dom (Language_Maps p)
                   ∧ languages q = languages p) _ _ _) in Hepoch; [done| |done].
    intros q1 batch q2 _ [Hd Hl] Hstep.
    destruct (train_on_batch q1 batch) as [[loss q3]|e] eqn:Hb; simpl in Hstep; [|done].
    injection Hstep as <-.
    apply train_on_batch_keeps in Hb as (Hd' & Hl' & _). split; congruence.
Qed.

(** *** The loss *)

Lemma Forall_zip_with_2 {A B C} (f : A → B → C) (P : A → Prop) (R : B → Prop)
    (S : C → Prop) (l : list A) (k : list B) :
  (∀ x y, P x → R y → S (f x y)) →
  Forall P l → Forall R k → Forall S (zip_with f l k).
Proof.
  intros Hf Hl. revert k. induction Hl as [|x l Hx _ IH]; intros k Hk; [constructor|].
  destruct Hk as [|y k Hy Hk]; simpl; constructor; auto.
Qed.

Lemma Forall_zip_with_diag {A C} (f : A → A → C) (S : C → Prop) (l : list A) :
  Forall (λ x, S (f x x)) l → Forall S (zip_with f l l).
Proof. induction 1; simpl; constructor; auto. Qed.

Lemma Forall_any {A} (l : list A) : Forall (λ _, True) l.
Proof. by apply Forall_forall. Qed.

Lemma Qsum_zero (v : vector) : Forall (λ x, x == 0) v → Qsum v == 0.
Proof.
  induction 1 as [|x v Hx _ IH]; simpl; [reflexivity|].
  rewrite Hx, IH. ring.
Qed.

Lemma Qdiv_nonneg (a b : Q) : 0 <= a → 0 <= b → 0 <= a / b.
Proof.
  intros Ha Hb. unfold Qdiv. apply Qmult_le_0_compat; [done|].
  by apply Qinv_le_0_compat.
Qed.

Lemma square_nonneg (a : Q) : 0 <= a * a.
Proof. destruct a as [n q]. unfold Qle. simpl. nia. Qed.

Lemma inject_nat_nonneg (n : nat) : 0 <= inject_Z (Z.of_nat n).
Proof. unfold Qle. simpl. lia. Qed.

Lemma sentence_sums_nonneg (predicted gold : tensor3) :
  Forall (λ x, 0 <= x) (reduce_sum_12 (abs_diff predicted gold)).
Proof.
  unfold reduce_sum_12, abs_diff. apply Forall_fmap.
  apply (Forall_zip_with_2 _ (λ _, True) (λ _, True)); [|apply Forall_any..].
  intros m1 m2 _ _. cbv beta. apply Qsum_nonneg, Forall_fmap.
  apply (Forall_zip_with_2 _ (λ _, True) (λ _, True)); [|apply Forall_any..].
  intros r1 r2 _ _. cbv beta. apply Qsum_nonneg.
  apply (Forall_zip_with_2 _ (λ _, True) (λ _, True)); [|apply Forall_any..].
  intros x y _ _. apply Qabs_nonneg.
Qed.

Lemma sentence_sums_zero (gold : tensor3) :
  Forall (λ x, x == 0) (reduce_sum_12 (abs_diff gold gold)).
Proof.
  unfold reduce_sum_12, abs_diff. apply Forall_fmap, Forall_zip_with_diag.
  apply Forall_forall. intros m _. cbv beta. apply Qsum_zero, Forall_fmap.
  apply Forall_zip_with_diag, Forall_forall. intros r _. cbv beta.
  apply Qsum_zero, Forall_zip_with_diag, Forall_forall. intros x _.
  setoid_replace (x - x) with 0 using relation Qeq by ring. reflexivity.
Qed.

(** X18. The loss is never negative, and it is zero when the predicted
    distances are the gold ones (word counts that are not zero, a batch that
    is not empty). *)
Theorem loss_nonneg_and_zero_on_gold (predicted gold : tensor3) (token_lens : list Z) :
  Forall (λ n, n ≠ 0%Z) token_lens →
  (0 < length token_lens)%nat →
  length predicted = length token_lens →
  length gold = length token_lens →
  0 <= _loss predicted gold token_lens
  ∧ _loss gold gold token_lens == 0.
Proof.
  intros _ _ _ _. unfold _loss, reduce_mean. split.
  - apply Qdiv_nonneg; [|apply inject_nat_nonneg].
    apply Qsum_nonneg.
    apply (Forall_zip_with_2 _ (λ x, 0 <= x) (λ y, 0 <= y)).
    + intros x y. apply Qdiv_nonneg.
    + apply sentence_sums_nonneg.
    + apply Forall_fmap, Forall_forall. intros n _. simpl. apply square_nonneg.
  - assert (Hz : Qsum (zip_with Qdiv (reduce_sum_12 (abs_diff gold gold))
                         (map (λ n, inject_Z n * inject_Z n) token_lens)) == 0).
    { apply Qsum_zero.
      apply (Forall_zip_with_2 _ (λ x, x == 0) (λ _, True)).
      - intros x y Hx _. rewrite Hx. unfold Qdiv. ring.
      - apply sentence_sums_zero.
      - apply Forall_any. }
    rewrite Hz. unfold Qdiv. ring.
Qed.

(** One sentence of a batch: its predicted and its gold matrix, its word
    count. *)
Definition sample_loss (s : matrix * matrix * Z) : Q :=
  Qsum (map Qsum (zip_with (zip_with (λ x y, Qabs (x - y))) s.1.1 s.1.2))
  / (inject_Z s.2 * inject_Z s.2).

Definition loss_of_samples (samples : list (matrix * matrix * Z)) : Q :=
  _loss (map (λ s, s.1.1) samples) (map (λ s, s.1.2) samples) (map snd samples).

Lemma loss_of_samples_unfold (samples : list (matrix * matrix * Z)) :
  loss_of_samples samples = reduce_mean (map sample_loss samples).
Proof.
  unfold loss_of_samples, _loss. f_equal.
  induction samples as [|s samples IH]; [done|]. simpl. by rewrite <- IH.
Qed.

Lemma Qsum_permutation (v w : vector) : v ≡ₚ w → Qsum v == Qsum w.
Proof.
  induction 1 as [|x v w _ IH|x y v|v w u _ IH1 _ IH2]; simpl.
  - reflexivity.
  - by rewrite IH.
  - ring.
  - by rewrite IH1.
Qed.

(** X19. The loss does not depend on which sentence stands in which slot of
    the batch: permuting the sentences, each with its gold matrix and its
    word count, leaves it the same (in exact arithmetic). *)
Theorem loss_permutation_invariant (samples samples' : list (matrix * matrix * Z)) :
  samples ≡ₚ samples' →
  loss_of_samples samples == loss_of_samples samples'.
Proof.
  intros Hperm. rewrite !loss_of_samples_unfold. unfold reduce_mean.
  rewrite !length_map, (Permutation_length Hperm).
  rewrite (Qsum_permutation (map sample_loss samples) (map sample_loss samples')).
  - reflexivity.
  - by apply fmap_Permutation.
Qed.

(** *** More on [evaluate] *)

Lemma foldl_Qplus (a : Q) (v : vector) : foldl Qplus a v == a + Qsum v.
Proof.
  revert a. induction v as [|x v IH]; intros a; simpl; [ring|].
  rewrite IH. ring.
Qed.

Lemma language_mean_spec (losses : vector) :
  language_mean losses
  == Qsum losses / inject_Z (Z.of_nat (length losses `max` 1)).
Proof.
  unfold language_mean, divisor. rewrite foldl_Qplus.
  replace (length losses - 1 + 1)%nat with (length losses `max` 1)%nat by lia.
  unfold Qdiv. ring.
Qed.

(** X20. With the languages handed over with their positions, and batches
    that all evaluate, [evaluate] returns the mean over the languages of the
    per-language means, the mean of a language being the sum of its batch
    losses over their number (over 1 when it has none). *)
Theorem evaluate_mean_of_means (p : probe) (data : nat → string → list Batch)
    (batch_size : nat) (names : list string) :
  languages p = enumerated names →
  (∀ name batch, name ∈ names → batch ∈ data batch_size name →
     ∃ l, evaluate_on_batch p batch = Ok l) →
  ∃ means,
    evaluate p data batch_size
      = Ok (Qsum means / inject_Z (Z.of_nat (length names)))
    ∧ Forall2 (λ name mean,
        mean == Qsum (map (loss_of p) (data batch_size name))
                / inject_Z (Z.of_nat (length (data batch_size name) `max` 1)))
        names means.
Proof.
  intros Hl Hok. eexists. split.
  - rewrite (evaluate_enumerated p data batch_size names Hl Hok).
    unfold reduce_mean. by rewrite length_map.
  - apply Forall2_fmap_r, Forall_Forall2_diag, Forall_forall.
    intros name _. cbv beta.
    replace (length (data batch_size name))
      with (length (map (loss_of p) (data batch_size name))) by apply length_map.
    apply language_mean_spec.
Qed.

Lemma np_locate_outside (n : nat) (i : Z) :
  ¬ (- Z.of_nat n ≤ i < Z.of_nat n)%Z → np_locate n (IndexInt i) = Err IndexError.
Proof.
  intros Hout. unfold np_locate.
  rewrite !bool_decide_eq_false_2 by lia. done.
Qed.

Lemma accumulate_length (p : probe) (idx : py_index) (st st' : eval_state)
    (item : nat * Batch) :
  accumulate p idx st item = Ok st' →
  length (all_losses st') = length (all_losses st).
Proof.
  unfold accumulate. destruct (evaluate_on_batch p item.2); simpl; [|done].
  destruct (np_locate _ idx); simpl; [|done].
  intros [= <-]. simpl. apply length_insert.
Qed.

Lemma evaluate_language_length (p : probe) (data : nat → string → list Batch)
    (batch_size : nat) (losses losses' : list Q) (e : lang_entry) :
  evaluate_language p data batch_size losses e = Ok losses' →
  length losses' = length losses.
Proof.
  unfold evaluate_language. destruct (unpack_entry e) as [u|err]; simpl; [|done].
  destruct (for_each _ _ _) as [st|err] eqn:Hloop; simpl; [|done].
  apply (for_each_preserves _ (λ s, length (all_losses s) = length losses)) in Hloop;
    [|by intros s x s' _ <- ?%accumulate_length|done].
  destruct (np_locate _ _); simpl; [|done].
  intros [= <-]. by rewrite length_insert.
Qed.

(** X21. [evaluate] returns no scalar when some language comes with an index
    outside the accumulator, that is not in [-K, K) for [K] languages: the
    array access raises (unless an earlier language or batch already did). *)
Theorem evaluate_index_out_of_range (p : probe) (data : nat → string → list Batch)
    (batch_size : nat) (lang_idx : Z) (name : string) :
  LangPair lang_idx name ∈ languages p →
  ¬ (- Z.of_nat (length (languages p)) ≤ lang_idx < Z.of_nat (length (languages p)))%Z →
  ∃ e, evaluate p data batch_size = Err e.
Proof.
  intros (before & rest & Hsplit)%list_elem_of_split Hout. unfold evaluate.
  set (K := length (languages p)) in *.
  assert (Hzeros : length (zeros K) = K) by apply length_replicate.
  revert Hzeros. generalize (zeros K). intros acc Hacc.
  rewrite Hsplit, for_each_app.
  destruct (for_each _ acc before) as [acc1|e] eqn:Hbefore; simpl; [|eauto].
  apply (for_each_preserves _ (λ a, length a = K)) in Hbefore;
    [|by intros s x s' _ <- ?%evaluate_language_length|done].
  assert (Hhere : ∃ e, evaluate_language p data batch_size acc1
                         (LangPair lang_idx name) = Err e).
  { unfold evaluate_language. simpl.
    destruct (for_each _ _ _) as [st|e] eqn:Hloop; simpl; [|eauto].
    apply (for_each_preserves _ (λ s, length (all_losses s) = K)) in Hloop;
      [|by intros s x s' _ <- ?%accumulate_length|done].
    rewrite Hloop, np_locate_outside by done. simpl. eauto. }
  destruct Hhere as [e ->]. simpl. eauto.
Qed.

End DistanceProbe.

(** *** Pooling and the sentinel positions *)

(** Two embeddings of one sentence that differ at most where the segment
    map has the sentinel. *)
Definition agree_off_sentinel (seg : list Z) (x1 x2 : matrix) : Prop :=
  length x1 = length x2
  ∧ width x1 = width x2
  ∧ ∀ k id, seg !! k = Some id → (0 ≤ id)%Z → x1 !! k = x2 !! k.

Lemma segment_rows_agree (seg : list Z) (x1 x2 : matrix) (s : Z) :
  length x1 = length x2 →
  (∀ k id, seg !! k = Some id → (0 ≤ id)%Z → x1 !! k = x2 !! k) →
  (0 ≤ s)%Z →
  segment_rows x1 seg s = segment_rows x2 seg s.
Proof.
  unfold segment_rows. revert x1 x2.
  induction seg as [|id seg IH]; intros [|r1 x1] [|r2 x2] Hlen Hagree Hs;
    try done.
  injection Hlen as Hlen.
  assert (Htail : (filter (λ p, p.1 = s) (zip seg x1)).*2
                  = (filter (λ p, p.1 = s) (zip seg x2)).*2).
  { apply IH; [done| |done]. intros k id' Hk. apply (Hagree (S k) id' Hk). }
  change (zip (id :: seg) (r1 :: x1)) with ((id, r1) :: zip seg x1).
  change (zip (id :: seg) (r2 :: x2)) with ((id, r2) :: zip seg x2).
  destruct (decide (id = s)) as [->|Hne].
  - rewrite !filter_cons_True by done. rewrite !fmap_cons, Htail.
    assert (Some r1 = Some r2) as [= ->]; [|done].
    by apply (Hagree 0%nat s).
  - by rewrite !filter_cons_False by done.
Qed.

Lemma unsorted_segment_mean_agree (seg : list Z) (x1 x2 : matrix) (n : Z) :
  agree_off_sentinel seg x1 x2 →
  unsorted_segment_mean x1 seg n = unsorted_segment_mean x2 seg n.
Proof.
  intros (Hlen & Hwidth & Hagree). unfold unsorted_segment_mean.
  rewrite Hlen. destruct (_ && _); [|done]. f_equal.
  apply map_ext. intros s. unfold segment_mean.
  rewrite (segment_rows_agree seg x1 x2) by (done || lia).
  by rewrite Hwidth.
Qed.

Lemma pool_batch_agree (e1 e2 : tensor3) (segs : list (list Z)) (lens : list Z) :
  length e1 = length e2 →
  (∀ b x1 x2 seg, e1 !! b = Some x1 → e2 !! b = Some x2 → segs !! b = Some seg →
     agree_off_sentinel seg x1 x2) →
  pool_batch e1 segs lens = pool_batch e2 segs lens.
Proof.
  revert e2 segs lens.
  induction e1 as [|x1 e1 IH]; intros [|x2 e2] [|seg segs] [|n ns] Hlen Hagree;
    try done.
  simpl. injection Hlen as Hlen.
  rewrite (unsorted_segment_mean_agree seg x1 x2 n) by (by apply (Hagree 0%nat)).
  rewrite (IH e2 segs ns); [done|done|].
  intros b y1 y2 sg H1 H2 H3. by apply (Hagree (S b)).
Qed.

(** X22. The distances do not depend on what the transformer returns at the
    positions whose segment is the sentinel (the two markers and the padding):
    two transformers that agree at every other position of the batch give the
    same result of [forward], distances or error. *)
Theorem forward_ignores_sentinel_positions (bert1 bert2 : list (list Z) → tensor3)
    (optimizer_state : Type) (p : probe optimizer_state) (batch : Batch) :
  length (bert1 (wordpieces batch)) = length (bert2 (wordpieces batch)) →
  (∀ b x1 x2 seg,
     bert1 (wordpieces batch) !! b = Some x1 →
     bert2 (wordpieces batch) !! b = Some x2 →
     segments batch !! b = Some seg →
     agree_off_sentinel seg x1 x2) →
  forward bert1 optimizer_state p batch = forward bert2 optimizer_state p batch.
Proof.
  intros Hlen Hagree. unfold forward.
  by rewrite (pool_batch_agree _ _ _ _ Hlen Hagree).
Qed.

Lemma forallb_decide_2 {A} (P : A → Prop) `{∀ x, Decision (P x)} (l : list A) :
  Forall P l → forallb (λ x, bool_decide (P x)) l = true.
Proof.
  induction 1 as [|x l Hx _ IH]; simpl; [done|].
  by rewrite bool_decide_eq_true_2, IH.
Qed.

(** X23. What [training_examples] returns for a kept sentence is a valid
    input of the pooling: on any embedding with one row per wordpiece
    position, [unsorted_segment_mean] with the sentence's segment map and its
    [max_segment] entry raises no error and gives one row per word. *)
Theorem kept_sentence_pools (tokenize : string → list string)
    (convert_tokens_to_ids : list string → list Z) (MAX_TOKENS MAX_WORDPIECES : nat)
    (c : Conll.corpus) (k : nat) (sent : list string) (data : matrix) :
  Conll.tokens
    (Conll.training_examples tokenize convert_tokens_to_ids MAX_TOKENS MAX_WORDPIECES c).2
    !! k = Some sent →
  length data = MAX_WORDPIECES →
  ∃ seg m pooled,
    (Conll.training_examples tokenize convert_tokens_to_ids MAX_TOKENS MAX_WORDPIECES c).1.1.2
      !! k = Some seg
    ∧ (Conll.training_examples tokenize convert_tokens_to_ids MAX_TOKENS MAX_WORDPIECES c).1.2
      !! k = Some m
    ∧ unsorted_segment_mean data seg m = Ok pooled
    ∧ length pooled = length sent.
Proof.
  intros Hk Hdata.
  destruct (Conll.kept_segment_bounds tokenize convert_tokens_to_ids MAX_TOKENS
              MAX_WORDPIECES c k sent Hk) as (seg & Hseg & Hm & Hlen & Hbound).
  exists seg, (Z.of_nat (length sent)).
  assert (Hpool : unsorted_segment_mean data seg (Z.of_nat (length sent))
            = Ok (map (λ s, segment_mean data seg (Z.of_nat s))
                    (seq 0 (Z.to_nat (Z.of_nat (length sent)))))).
  { unfold unsorted_segment_mean.
    rewrite bool_decide_eq_true_2 by lia.
    rewrite bool_decide_eq_true_2 by congruence.
    by rewrite (forallb_decide_2 _ seg Hbound). }
  eexists. split_and!; [done|done|exact Hpool|].
  by rewrite length_map, length_seq, Nat2Z.id.
Qed.

(** *** A concrete instance

    A stand-in transformer that embeds a wordpiece id [n] as [(n, 1)], an
    optimizer that subtracts the gradient and counts its steps, a constant
    gradient, and the two-word sentence of the wrapper's example. *)

Definition demo_bert (ids : list (list Z)) : tensor3 :=
  map (map (λ n, [inject_Z n; 1])) ids.

Definition demo_adam (o : nat) (v : variable) (value gradient : matrix) : nat * matrix :=
  (S o, zip_with vsub value gradient).

Definition identity2 : matrix := [[1; 0]; [0; 1]].

Definition demo_gradient (p : probe nat) (batch : Batch) (v : variable) : matrix :=
  [[1; 1]; [1; 1]].

Definition demo_batch (lang : lang_entry) : Batch :=
  {| wordpieces := [[5; 1; 3; 5; 0; 0; 0; 0]%Z];
     segments := [[-1; 0; 1; -1; -1; -1; -1; -1]%Z];
     max_token_len := [2%Z];
     token_len := [2%Z];
     target := [[[0; 1]; [1; 0]]];
     language := lang |}.

Definition demo_probe : probe nat :=
  {| languages := [LangName "en"; LangName "de"];
     Distance_Probe := identity2;
     Language_Maps := <[LangName "en" := identity2]> (<[LangName "de" := identity2]> ∅);
     optimizer := 0%nat |}.

Definition demo_distances : tensor3 := [[[0; 4]; [4; 0]]].

Example demo_forward :
  match forward demo_bert nat demo_probe (demo_batch (LangName "en")) with
  | Ok d => Forall2 (Forall2 (Forall2 Qeq)) d demo_distances
  | Err _ => False
  end.
Proof. vm_compute. repeat constructor. Qed.

Definition demo_forward_result : tensor3 :=
  match forward demo_bert nat demo_probe (demo_batch (LangName "en")) with
  | Ok d => d
  | Err _ => []
  end.

Lemma forward_symmetric_witness :
  entry3 demo_forward_result 0 0 1 == entry3 demo_forward_result 0 1 0
  ∧ entry3 demo_forward_result 0 0 0 == 0.
Proof.
  destruct (forward_symmetric demo_bert nat demo_probe (demo_batch (LangName "en"))
              demo_forward_result) as [_ Hsym].
  - vm_compute. reflexivity.
  - exact (Hsym 0%nat 0%nat 1%nat).
Defined.

Lemma loss_is_mean_of_normalised_l1_witness :
  _loss demo_distances [[[0; 1]; [1; 0]]] [2%Z]
  = spec_loss demo_distances [[[0; 1]; [1; 0]]] [2%Z] 1 2.
Proof.
  apply (loss_is_mean_of_normalised_l1 demo_distances [[[0; 1]; [1; 0]]] [2%Z] 1 2).
  - split; [reflexivity|]. repeat constructor.
  - split; [reflexivity|]. repeat constructor.
  - reflexivity.
Defined.

Example demo_loss : _loss demo_distances [[[0; 1]; [1; 0]]] [2%Z] == 3 # 2.
Proof. vm_compute. reflexivity. Qed.

Definition demo_trained : Q * probe nat :=
  match train_on_batch demo_bert nat demo_adam demo_gradient demo_probe
          (demo_batch (LangName "en")) with
  | Ok r => r
  | Err _ => (0, demo_probe)
  end.

Lemma train_on_batch_frame_witness :
  Language_Maps nat demo_trained.2 !! LangName "de"
  = Language_Maps nat demo_probe !! LangName "de".
Proof.
  destruct (train_on_batch_frame demo_bert nat demo_adam demo_gradient demo_probe
              (demo_batch (LangName "en")) demo_trained.1 demo_trained.2)
    as (_ & _ & Hframe).
  - vm_compute. reflexivity.
  - apply Hframe. discriminate.
Defined.

(** The step does change the map of the batch's own language. *)
Example demo_trained_en :
  Language_Maps nat demo_trained.2 !! LangName "en" ≠ Some identity2.
Proof. vm_compute. discriminate. Qed.

(** The failing input of C6: two language names. *)
Example demo_evaluate_names :
  evaluate demo_bert nat demo_probe (λ _ _, []) 1 = Err IndexError.
Proof. vm_compute. reflexivity. Qed.

(** The same two languages handed over with their positions; only the first
    has an evaluation batch. *)
Definition enumerated_probe : probe nat :=
  {| languages := enumerated ["en"; "de"];
     Distance_Probe := identity2;
     Language_Maps :=
       <[LangPair 0 "en" := identity2]> (<[LangPair 1 "de" := identity2]> ∅);
     optimizer := 0%nat |}.

Definition demo_data (batch_size : nat) (name : string) : list Batch :=
  if decide (name = "en") then [demo_batch (LangPair 0 "en")] else [].

Lemma evaluate_without_batches_witness :
  ∃ means,
    evaluate demo_bert nat enumerated_probe demo_data 1 = Ok (reduce_mean means)
    ∧ length means = 2%nat
    ∧ means !! 1%nat = Some 0.
Proof.
  destruct (evaluate_without_batches demo_bert nat enumerated_probe demo_data 1
              ["en"; "de"]) as (_ & _ & means & Heval & Hlen & Hzero).
  - reflexivity.
  - intros name batch _ Hin. unfold demo_data in Hin.
    destruct (decide (name = "en")) as [_|_].
    + apply list_elem_of_singleton in Hin. subst batch.
      eexists. vm_compute. reflexivity.
    + by apply elem_of_nil in Hin.
  - exists means. split_and!; [exact Heval|exact Hlen|].
    exact (Hzero 1%nat "de" eq_refl eq_refl).
Defined.

(** *** The further facts on the concrete instance *)

Lemma demo_forward_ok :
  forward demo_bert nat demo_probe (demo_batch (LangName "en")) = Ok demo_forward_result.
Proof. vm_compute. reflexivity. Qed.

Lemma forward_shape_witness :
  ∃ n0,
    head (max_token_len (demo_batch (LangName "en"))) = Some n0
    ∧ Forall (λ n, n = n0) (max_token_len (demo_batch (LangName "en")))
    ∧ length demo_forward_result = length (max_token_len (demo_batch (LangName "en")))
    ∧ ∀ m, m ∈ demo_forward_result →
        length m = Z.to_nat n0 ∧ ∀ row, row ∈ m → length row = Z.to_nat n0.
Proof.
  apply (forward_shape demo_bert nat demo_probe (demo_batch (LangName "en"))
           demo_forward_result).
  vm_compute. reflexivity.
Defined.

Lemma forward_nonneg_witness : 0 <= entry3 demo_forward_result 0 0 1.
Proof.
  apply (forward_nonneg demo_bert nat demo_probe (demo_batch (LangName "en"))
           demo_forward_result 0 0 1).
  vm_compute. reflexivity.
Defined.

Lemma forward_needs_matching_shapes_witness :
  ∃ language_map,
    Language_Maps nat demo_probe !! language (demo_batch (LangName "en"))
      = Some language_map
    ∧ length (Distance_Probe nat demo_probe) = width language_map.
Proof.
  apply (forward_needs_matching_shapes demo_bert nat demo_probe
           (demo_batch (LangName "en")) demo_forward_result).
  - vm_compute. reflexivity.
  - exists (default [] (demo_forward_result !! 0%nat)). split.
    + apply (list_elem_of_lookup_2 _ 0%nat). vm_compute. reflexivity.
    + vm_compute. discriminate.
Defined.

Lemma unknown_language_raises_witness :
  forward demo_bert nat demo_probe (demo_batch (LangName "fr")) = Err KeyError
  ∧ evaluate_on_batch demo_bert nat demo_probe (demo_batch (LangName "fr")) = Err KeyError
  ∧ train_on_batch demo_bert nat demo_adam demo_gradient demo_probe
      (demo_batch (LangName "fr")) = Err StagingError.
Proof.
  destruct (unknown_language_raises demo_bert nat demo_adam demo_gradient demo_probe
              (demo_batch (LangName "fr"))) as (_ & _ & Hkey).
  - vm_compute. reflexivity.
  - apply (Hkey [[[1; 1]; [3; 1]]]); vm_compute; reflexivity.
Defined.

Example unknown_language_key_error :
  forward demo_bert nat demo_probe (demo_batch (LangName "fr")) = Err KeyError.
Proof. vm_compute. reflexivity. Qed.

(** Two epochs over the one English batch. *)
Definition english_batches (epoch_idx batch_size : nat) : list Batch :=
  [demo_batch (LangName "en")].

Definition demo_trained_twice : probe nat :=
  match train demo_bert nat demo_adam demo_gradient demo_probe english_batches 2 1 with
  | Ok p => p
  | Err _ => demo_probe
  end.

Lemma train_frame_witness :
  Language_Maps nat demo_trained_twice !! LangName "de"
  = Language_Maps nat demo_probe !! LangName "de".
Proof.
  apply (train_frame demo_bert nat demo_adam demo_gradient demo_probe english_batches
           2 1 demo_trained_twice (LangName "de")).
  - vm_compute. reflexivity.
  - intros epoch_idx batch _ Hin. unfold english_batches in Hin.
    apply list_elem_of_singleton in Hin. subst batch. discriminate.
Defined.

Lemma loss_nonneg_and_zero_on_gold_witness :
  0 <= _loss demo_distances [[[0; 1]; [1; 0]]] [2%Z]
  ∧ _loss [[[0; 1]; [1; 0]]] [[[0; 1]; [1; 0]]] [2%Z] == 0.
Proof.
  apply (loss_nonneg_and_zero_on_gold demo_distances [[[0; 1]; [1; 0]]] [2%Z]).
  - constructor; [discriminate|constructor].
  - simpl. lia.
  - reflexivity.
  - reflexivity.
Defined.

Definition sample_a : matrix * matrix * Z := ([[0; 4]; [4; 0]], [[0; 1]; [1; 0]], 2%Z).
Definition sample_b : matrix * matrix * Z := ([[0]], [[0]], 1%Z).

Lemma loss_permutation_invariant_witness :
  loss_of_samples [sample_a; sample_b] == loss_of_samples [sample_b; sample_a].
Proof.
  apply (loss_permutation_invariant [sample_a; sample_b] [sample_b; sample_a]).
  apply perm_swap.
Defined.

Lemma evaluate_mean_of_means_witness :
  ∃ means,
    evaluate demo_bert nat enumerated_probe demo_data 1
      = Ok (Qsum means / inject_Z (Z.of_nat (length ["en"; "de"])))
    ∧ length means = 2%nat.
Proof.
  destruct (evaluate_mean_of_means demo_bert nat enumerated_probe demo_data 1
              ["en"; "de"]) as (means & Heval & Hmeans).
  - reflexivity.
  - intros name batch _ Hin. unfold demo_data in Hin.
    destruct (decide (name = "en")) as [_|_].
    + apply list_elem_of_singleton in Hin. subst batch.
      eexists. vm_compute. reflexivity.
    + by apply elem_of_nil in Hin.
  - exists means. split; [exact Heval|].
    symmetry. exact (Forall2_length _ _ _ Hmeans).
Defined.

(** One language, handed over with an index that the accumulator of one
    entry does not have. *)
Definition misnumbered_probe : probe nat :=
  {| languages := [LangPair 5 "en"];
     Distance_Probe := identity2;
     Language_Maps := <[LangPair 5 "en" := identity2]> ∅;
     optimizer := 0%nat |}.

Lemma evaluate_index_out_of_range_witness :
  ∃ e, evaluate demo_bert nat misnumbered_probe demo_data 1 = Err e.
Proof.
  apply (evaluate_index_out_of_range demo_bert nat misnumbered_probe demo_data 1 5 "en").
  - apply list_elem_of_singleton. reflexivity.
  - simpl. lia.
Defined.

(** A second stand-in transformer: as [demo_bert] on the ids 1 and 3 of the
    two words, different on every other id. *)
Definition other_bert (ids : list (list Z)) : tensor3 :=
  map (map (λ n, if bool_decide (n = 1 ∨ n = 3)%Z then [inject_Z n; 1] else [7; 1])) ids.

Lemma forward_ignores_sentinel_positions_witness :
  forward demo_bert nat demo_probe (demo_batch (LangName "en"))
  = forward other_bert nat demo_probe (demo_batch (LangName "en")).
Proof.
  apply (forward_ignores_sentinel_positions demo_bert other_bert nat demo_probe
           (demo_batch (LangName "en"))).
  - reflexivity.
  - intros b x1 x2 seg H1 H2 H3.
    destruct b as [|b]; [|discriminate H1].
    injection H1 as <-. injection H2 as <-. injection H3 as <-.
    split; [reflexivity|]. split; [reflexivity|].
    intros k id Hk Hid.
    do 8 (destruct k as [|k]; [injection Hk as <-; first [lia|reflexivity]|]).
    discriminate Hk.
Defined.

Lemma kept_sentence_pools_witness :
  ∃ seg m pooled,
    (Conll.training_examples Conll.whitespace_tokenizer Conll.length_ids 4 8
       Conll.two_words).1.1.2 !! 0%nat = Some seg
    ∧ (Conll.training_examples Conll.whitespace_tokenizer Conll.length_ids 4 8
         Conll.two_words).1.2 !! 0%nat = Some m
    ∧ unsorted_segment_mean (replicate 8 [1; 1]) seg m = Ok pooled
    ∧ length pooled = 2%nat.
Proof.
  apply (kept_sentence_pools Conll.whitespace_tokenizer Conll.length_ids 4 8
           Conll.two_words 0 ["a"; "b"] (replicate 8 [1; 1])).
  - reflexivity.
  - reflexivity.
Defined.

End Probe.
